(** * CopyQ log dialog: the batch decorators of [src/gui/logdialog.cpp]

    A shallow embedding of the log dialog's text pipeline
    ([LogDialog::updateLog], [showLogLines]) and of the [Decorator]
    classes ([Decorator::decorate], [Decorator::decorateBatch],
    [LogDecorator], [StringDecorator]), together with the part of Qt the
    code relies on: [QString::replace], [QString::remove], [QRegExp]
    matching and [QTextDocument::find] with [FindBackward]. *)

From Stdlib Require Import Ascii String Bool Arith ZArith Lia List.
Import ListNotations.

(** ** Characters and strings

    A [QChar] is modelled by its Latin-1 code unit, a [QString] by the
    list of its characters. *)

Definition QChar := ascii.
Definition QString := list QChar.

Definition qs (s : string) : QString := list_ascii_of_string s.

Definition newline : QChar := "010"%char.
(** [QChar::Nbsp], U+00A0. *)
Definition Nbsp : QChar := "160"%char.
Definition CR : QChar := "013"%char.
Definition space : QChar := " "%char.
Definition dquote : QChar := "034"%char.
Definition squote : QChar := "039"%char.

(** [QChar::toLower] and [QChar::toUpper], on the letters A-Z and a-z. *)
Definition toLower (c : QChar) : QChar :=
  let n := nat_of_ascii c in
  if (65 <=? n) && (n <=? 90) then ascii_of_nat (n + 32) else c.

Definition toUpper (c : QChar) : QChar :=
  let n := nat_of_ascii c in
  if (97 <=? n) && (n <=? 122) then ascii_of_nat (n - 32) else c.

(** [QString::startsWith(s)], case sensitive. *)
Fixpoint startsWith (s prefix : QString) {struct prefix} : bool :=
  match prefix, s with
  | [], _ => true
  | p :: prefix', c :: s' => Ascii.eqb c p && startsWith s' prefix'
  | _ :: _, [] => false
  end.

(** [QString::replace(before, after)]: every occurrence of [before],
    found from left to right without overlap, becomes [after].  [skip]
    counts the characters of the occurrence being replaced that are
    still to be dropped. *)
Fixpoint replaceFrom (before after : QString) (skip : nat) (s : QString)
  : QString :=
  match skip, s with
  | S k, _ :: s' => replaceFrom before after k s'
  | S _, [] => []
  | 0, [] => match before with [] => after | _ :: _ => [] end
  | 0, c :: s' =>
      if startsWith s before then
        match before with
        | [] => after ++ c :: replaceFrom before after 0 s'
        | _ :: before' =>
            after ++ replaceFrom before after (length before') s'
        end
      else c :: replaceFrom before after 0 s'
  end.

Definition replace (before after s : QString) : QString :=
  replaceFrom before after 0 s.

(** ** QRegExp

    The patterns of the program are written with these constructors:
    [^], a literal character, [.], a negated class [[^...]],
    concatenation, alternation and [*].  [RxEmpty] is the empty
    pattern. *)

Inductive CaseSensitivity := CaseInsensitive | CaseSensitive.

Inductive QRegExp : Type :=
| RxEmpty
| RxCaret
| RxChar (c : QChar)
| RxAny
| RxNoneOf (cs : list QChar)
| RxSeq (a b : QRegExp)
| RxAlt (a b : QRegExp)
| RxStar (a : QRegExp).

Arguments RxChar c%_char.

(** The pattern of a literal string (no metacharacter in it). *)
Fixpoint RxLiteral (s : QString) : QRegExp :=
  match s with
  | [] => RxEmpty
  | c :: s' => RxSeq (RxChar c) (RxLiteral s')
  end.

(** [QRegExp::isEmpty]: the pattern string is empty. *)
Definition isEmpty (r : QRegExp) : bool :=
  match r with RxEmpty => true | _ => false end.

Definition charMatches (cs : CaseSensitivity) (m c : QChar) : bool :=
  match cs with
  | CaseSensitive => Ascii.eqb m c
  | CaseInsensitive => Ascii.eqb (toLower m) (toLower c)
  end.

Definition noneOf (l : list QChar) (c : QChar) : bool :=
  negb (existsb (Ascii.eqb c) l).

Definition classMatches (cs : CaseSensitivity) (l : list QChar) (c : QChar)
  : bool :=
  match cs with
  | CaseSensitive => noneOf l c
  | CaseInsensitive => noneOf l (toLower c) || noneOf l (toUpper c)
  end.

(** The lengths matched by [a*] at the head of [s], which starts at index
    [off] of the searched string; [step] gives the lengths matched by
    [a].  Only iterations that consume a character are repeated. *)
Fixpoint rxStar (step : nat -> QString -> list nat) (fuel off : nat)
  (s : QString) : list nat :=
  0 :: match fuel with
       | 0 => []
       | S f =>
           flat_map
             (fun n => map (Nat.add n) (rxStar step f (off + n) (skipn n s)))
             (filter (fun n => 0 <? n) (step off s))
       end.

(** [rxLens cs r off s]: the lengths of all matches of [r] that start at
    the head of [s], where [s] is the searched string from its index
    [off] on.  The caret matches at index 0 only ([CaretAtZero]). *)
Fixpoint rxLens (cs : CaseSensitivity) (r : QRegExp) (off : nat)
  (s : QString) : list nat :=
  match r with
  | RxEmpty => [0]
  | RxCaret => if off =? 0 then [0] else []
  | RxChar m =>
      match s with
      | c :: _ => if charMatches cs m c then [1] else []
      | [] => []
      end
  | RxAny => match s with _ :: _ => [1] | [] => [] end
  | RxNoneOf l =>
      match s with
      | c :: _ => if classMatches cs l c then [1] else []
      | [] => []
      end
  | RxSeq a b =>
      flat_map
        (fun n => map (Nat.add n) (rxLens cs b (off + n) (skipn n s)))
        (rxLens cs a off s)
  | RxAlt a b => rxLens cs a off s ++ rxLens cs b off s
  | RxStar a => rxStar (rxLens cs a) (length s) off s
  end.

Definition longest (l : list nat) : option nat :=
  match l with
  | [] => None
  | n :: l' => Some (fold_left Nat.max l' n)
  end.

(** A match attempt at the head of [s], the searched string from its
    index [off] on: the matched length, the longest one as QRegExp's
    matcher keeps it, or [None]. *)
Definition matchHere (cs : CaseSensitivity) (r : QRegExp) (off : nat)
  (s : QString) : option nat :=
  longest (rxLens cs r off s).

(** A match attempt at exactly index [offset] of [str]. *)
Definition matchedLength (cs : CaseSensitivity) (r : QRegExp) (str : QString)
  (offset : nat) : option nat :=
  if offset <=? length str then matchHere cs r offset (skipn offset str)
  else None.

(** [QRegExp::lastIndexIn(str, offset)]: a match is attempted at
    [offset], then at [offset - 1], and so on down to 0; the first index
    that matches is returned with the matched length.  An [offset]
    beyond the end of [str] gives no match. *)
Fixpoint lastIndexFrom (cs : CaseSensitivity) (r : QRegExp) (str : QString)
  (offset : nat) : option (nat * nat) :=
  match matchedLength cs r str offset with
  | Some len => Some (offset, len)
  | None =>
      match offset with
      | 0 => None
      | S o => lastIndexFrom cs r str o
      end
  end.

Definition lastIndexIn (cs : CaseSensitivity) (r : QRegExp) (str : QString)
  (offset : nat) : option (nat * nat) :=
  if offset <=? length str then lastIndexFrom cs r str offset else None.

(** [QString::remove(rx)]: every match of [rx], found from left to right
    (each search resumes where the previous match ended, one character
    further after an empty match), is taken out of the string.  [s] is
    the string from index [i] on; [skip] counts the characters of the
    current match still to be dropped. *)
Fixpoint removeFrom (rx : QRegExp) (skip i : nat) (s : QString) : QString :=
  match s with
  | [] => []
  | c :: s' =>
      match skip with
      | S k => removeFrom rx k (S i) s'
      | 0 =>
          match matchHere CaseSensitive rx i s with
          | Some (S k) => removeFrom rx k (S i) s'
          | Some 0 | None => c :: removeFrom rx 0 (S i) s'
          end
      end
  end.

Definition remove (rx : QRegExp) (str : QString) : QString :=
  removeFrom rx 0 0 str.

(** ** Character formats *)

Inductive QColor :=
| Qt_white | Qt_black | Qt_red | Qt_darkRed | Qt_darkGreen
| QColor_rgb (r g b : Z).

Record QFont := { family : string; bold : bool }.

Definition setBold (f : QFont) (b : bool) : QFont :=
  {| family := family f; bold := b |}.

(** A [QTextCharFormat] holds the properties that were set on it. *)
Record QTextCharFormat := {
  fmt_font : option QFont;
  fmt_background : option QColor;
  fmt_foreground : option QColor
}.

Definition QTextCharFormat_new : QTextCharFormat :=
  {| fmt_font := None; fmt_background := None; fmt_foreground := None |}.

Definition setFont (x : QTextCharFormat) (f : QFont) : QTextCharFormat :=
  {| fmt_font := Some f; fmt_background := fmt_background x;
     fmt_foreground := fmt_foreground x |}.

Definition setBackground (x : QTextCharFormat) (c : QColor) : QTextCharFormat :=
  {| fmt_font := fmt_font x; fmt_background := Some c;
     fmt_foreground := fmt_foreground x |}.

Definition setForeground (x : QTextCharFormat) (c : QColor) : QTextCharFormat :=
  {| fmt_font := fmt_font x; fmt_background := fmt_background x;
     fmt_foreground := Some c |}.

(** ** Documents and cursors

    A [QTextDocument] is its sequence of blocks (paragraphs); a block is
    the sequence of its characters, each with its character format.  The
    separator that ends a block takes one position of the document, so a
    block's [length()] is one more than the length of its text. *)

Definition QTextBlock := list (QChar * QTextCharFormat).
Definition QTextDocument := list QTextBlock.

Definition blockText (b : QTextBlock) : QString := map fst b.

(** [QTextBlock::length()] and [QTextDocument::characterCount()]. *)
Definition blockLength {A : Type} (b : list A) : nat := S (length b).

Fixpoint characterCount {A : Type} (doc : list (list A)) : nat :=
  match doc with
  | [] => 0
  | b :: rest => blockLength b + characterCount rest
  end.

(** The texts of the blocks ([QTextBlock::text()]). *)
Definition blockTexts (doc : QTextDocument) : list QString :=
  map blockText doc.

(** The characters of the document, a newline between two blocks. *)
Fixpoint plainText (doc : QTextDocument) : QString :=
  match doc with
  | [] => []
  | [b] => blockText b
  | b :: rest => blockText b ++ newline :: plainText rest
  end.

(** [QTextDocument::toPlainText]: the blocks' texts joined by newlines,
    every no-break space given as a space. *)
Definition toPlainText (doc : QTextDocument) : QString :=
  map (fun c => if Ascii.eqb c Nbsp then space else c) (plainText doc).

(** The lines of a text: the text cut at its newlines, as the patterns
    of [updateLog], which look for a newline, see it. *)
Fixpoint splitBlocks (s : QString) : list QString :=
  match s with
  | [] => [[]]
  | c :: s' =>
      if Ascii.eqb c newline then [] :: splitBlocks s'
      else match splitBlocks s' with
           | b :: bs => (c :: b) :: bs
           | [] => [[c]]
           end
  end.

(** The paragraphs [QTextCursor::insertText] makes of a plain text: a
    block ends at a newline, at a carriage return, and at a carriage
    return with the newline that follows it, taken as one. *)
Fixpoint textBlocks (s : QString) : list QString :=
  match s with
  | [] => [[]]
  | c :: s' =>
      if Ascii.eqb c newline then [] :: textBlocks s'
      else if Ascii.eqb c CR then
        match s' with
        | c' :: s'' =>
            if Ascii.eqb c' newline then [] :: textBlocks s''
            else [] :: textBlocks s'
        | [] => [] :: textBlocks s'
        end
      else match textBlocks s' with
           | b :: bs => (c :: b) :: bs
           | [] => [[c]]
           end
  end.

(** [setPlainText]: the document's content becomes [s], all of it in the
    default character format. *)
Definition setPlainText (s : QString) : QTextDocument :=
  map (map (fun c => (c, QTextCharFormat_new))) (textBlocks s).

(** A non-null [QTextCursor] on the document.  A null cursor, one built
    by the default constructor or one whose document has been deleted,
    is [None] in an [option QTextCursor]. *)
Record QTextCursor := { anchor : nat; position : nat }.

Definition selectionStart (tc : QTextCursor) : nat :=
  Nat.min (anchor tc) (position tc).
Definition selectionEnd (tc : QTextCursor) : nat :=
  Nat.max (anchor tc) (position tc).

(** [QTextCursor(document)] followed by [movePosition(QTextCursor::End)]. *)
Definition cursorAtEnd (doc : QTextDocument) : QTextCursor :=
  {| anchor := characterCount doc - 1; position := characterCount doc - 1 |}.

(** The characters of the document by position, a newline standing for
    each block separator. *)
Fixpoint documentChars (doc : QTextDocument) : list (QChar * QTextCharFormat) :=
  match doc with
  | [] => []
  | b :: rest => b ++ (newline, QTextCharFormat_new) :: documentChars rest
  end.

(** [QTextCursor::selectedText].  (Qt shows U+2029 where a selection
    runs over a block separator; a match of [find] lies in one block and
    never does.) *)
Definition selectedText (tc : QTextCursor) (doc : QTextDocument) : QString :=
  map fst (firstn (selectionEnd tc - selectionStart tc)
             (skipn (selectionStart tc) (documentChars doc))).

(** [f] applied to the format of every character, by position. *)
Fixpoint mapBlockFormats (f : nat -> QTextCharFormat -> QTextCharFormat)
  (pos : nat) (b : QTextBlock) : QTextBlock :=
  match b with
  | [] => []
  | (c, x) :: b' => (c, f pos x) :: mapBlockFormats f (S pos) b'
  end.

Fixpoint mapFormats (f : nat -> QTextCharFormat -> QTextCharFormat)
  (pos : nat) (doc : QTextDocument) : QTextDocument :=
  match doc with
  | [] => []
  | b :: rest =>
      mapBlockFormats f pos b :: mapFormats f (pos + blockLength b) rest
  end.

Definition inSelection (tc : QTextCursor) (p : nat) : bool :=
  (selectionStart tc <=? p) && (p <? selectionEnd tc).

(** [QTextCursor::setCharFormat]: the format of the selected characters
    is replaced by [fmt]. *)
Definition setCharFormat (tc : QTextCursor) (fmt : QTextCharFormat)
  (doc : QTextDocument) : QTextDocument :=
  mapFormats (fun p old => if inSelection tc p then fmt else old) 0 doc.

(** ** QTextDocument::find(QRegExp, QTextCursor, FindBackward)

    The search reads the blocks' texts only. *)

(** The text a block is searched in: its text with every no-break space
    turned into a space. *)
Definition searchText (t : QString) : QString :=
  map (fun c => if Ascii.eqb c Nbsp then space else c) t.

(** [findInBlock] with [FindBackward]: the last match that starts at
    [offset] or before in the block of text [t] at position [bpos], as a
    cursor that selects it. *)
Definition findInBlock (re : QRegExp) (bpos : nat) (t : QString)
  (offset : nat) : option QTextCursor :=
  match lastIndexIn CaseInsensitive re (searchText t) offset with
  | Some (idx, len) =>
      Some {| anchor := bpos + idx; position := bpos + idx + len |}
  | None => None
  end.

(** [blocksFind(pos)]: the block that holds position [pos], with its
    position, followed by the blocks before it, nearest first (the chain
    of [QTextBlock::previous]).  Empty when no block holds [pos]. *)
Fixpoint blocksFind (blocks : list QString) (start pos : nat)
  (prev : list (nat * QString)) : list (nat * QString) :=
  match blocks with
  | [] => []
  | t :: rest =>
      if pos <? start + blockLength t then (start, t) :: prev
      else blocksFind rest (start + blockLength t) pos ((start, t) :: prev)
  end.

(** The loop over the previous blocks, each searched from its end
    ([blockOffset = block.length() - 1]). *)
Fixpoint findInPrevious (re : QRegExp) (prev : list (nat * QString))
  : option QTextCursor :=
  match prev with
  | [] => None
  | (bpos, t) :: prev' =>
      match findInBlock re bpos t (blockLength t - 1) with
      | Some c => Some c
      | None => findInPrevious re prev'
      end
  end.

(** [find(expr, from, FindBackward)]: an empty pattern finds nothing;
    the search starts one position before [from]; the pattern is matched
    without regard to case, as [FindCaseSensitively] is not given. *)
Definition findFrom (re : QRegExp) (blocks : list QString) (from : nat)
  : option QTextCursor :=
  if isEmpty re then None
  else
    match from with
    | 0 => None
    | S pos =>
        match blocksFind blocks 0 pos [] with
        | [] => None
        | (bpos, t) :: prev =>
            match findInBlock re bpos t (pos - bpos) with
            | Some c => Some c
            | None => findInPrevious re prev
            end
        end
    end.

(** [find(expr, cursor, FindBackward)] searches from the start of the
    cursor's selection. *)
Definition find (re : QRegExp) (doc : QTextDocument) (cursor : QTextCursor)
  : option QTextCursor :=
  findFrom re (blockTexts doc) (selectionStart cursor).

(** ** class Decorator

    The state of a [Decorator] object: its cursor [m_tc] ([None] when
    null) and whether its single-shot timer [m_timerDecorate] is
    running.  The document the cursor is on is passed along with it; the
    pattern [m_re] and the virtual [decorate] hook are the
    section's variables.  [elapsed k] is what [t.elapsed()] reads, in
    milliseconds, the [k]-th time the loop of a batch asks. *)

Record Decorator := { m_tc : option QTextCursor; m_timerDecorate : bool }.

(** What a call gives back: the document, the decorator, and the cursors
    handed to the virtual [decorate], in order. *)
Definition Outcome : Type := QTextDocument * Decorator * list QTextCursor.

Section DecoratorClass.

Variable m_re : QRegExp.
Variable decorateCursor : QTextCursor -> QTextDocument -> QTextDocument.

(** The do-while loop of [decorateBatch].  [timer] is the state of the
    timer when the batch was entered: the early [return] leaves it as
    it is.  [fuel] bounds the number of iterations; [None] stands for
    a loop that has not returned within it.  Every match found starts
    before the cursor it was searched from, so the start of the first
    cursor, which [decorateBatch] gives as fuel, is enough
    ([decorateLoop_spec]). *)
Fixpoint decorateLoop (fuel : nat) (elapsed : nat -> Z) (k : nat)
  (timer : bool) (doc : QTextDocument) (tc : QTextCursor) : option Outcome :=
  match find m_re doc tc with
  | None => Some (doc, {| m_tc := None; m_timerDecorate := timer |}, [])
  | Some tc' =>
      let doc' := decorateCursor tc' doc in
      if (elapsed k <? 20)%Z then
        match fuel with
        | 0 => None
        | S fuel' =>
            match decorateLoop fuel' elapsed (S k) timer doc' tc' with
            | Some (d, dec, visited) => Some (d, dec, tc' :: visited)
            | None => None
            end
        end
      else Some (doc', {| m_tc := Some tc'; m_timerDecorate := true |}, [tc'])
  end.

(** The slot [decorateBatch()]. *)
Definition decorateBatch (elapsed : nat -> Z) (doc : QTextDocument)
  (dec : Decorator) : option Outcome :=
  match m_tc dec with
  | None => Some (doc, dec, [])
  | Some tc =>
      decorateLoop (selectionStart tc) elapsed 0 (m_timerDecorate dec) doc tc
  end.

(** [decorate(QTextDocument *document)]. *)
Definition decorate (elapsed : nat -> Z) (doc : QTextDocument)
  (dec : Decorator) : option Outcome :=
  decorateBatch elapsed doc
    {| m_tc := Some (cursorAtEnd doc); m_timerDecorate := m_timerDecorate dec |}.

(** Modelled from the spec: [initSingleShotTimer] of [common/common.h]
    is not among the sources; by its call and the specification,
    [m_timerDecorate] is a single-shot timer of interval 0 whose timeout
    runs [decorateBatch].  When it fires it stops, then the slot runs. *)
Definition timeout (elapsed : nat -> Z) (doc : QTextDocument)
  (dec : Decorator) : option Outcome :=
  decorateBatch elapsed doc {| m_tc := m_tc dec; m_timerDecorate := false |}.

(** The event loop serving the decorator's timer until it is no longer
    running: at most [n] timeouts, the [j]-th of them reading the
    clock [clock j]. *)
Fixpoint runTimer (n : nat) (clock : nat -> nat -> Z) (j : nat)
  (doc : QTextDocument) (dec : Decorator) : option Outcome :=
  if m_timerDecorate dec then
    match n with
    | 0 => None
    | S n' =>
        match timeout (clock j) doc dec with
        | Some (doc1, dec1, v1) =>
            match runTimer n' clock (S j) doc1 dec1 with
            | Some (doc2, dec2, v2) => Some (doc2, dec2, v1 ++ v2)
            | None => None
            end
        | None => None
        end
    end
  else Some (doc, dec, []).

(** A pass: [decorate], then the timer's continuations. *)
Definition pass (clock : nat -> nat -> Z) (doc : QTextDocument)
  (dec : Decorator) : option Outcome :=
  match decorate (clock 0) doc dec with
  | Some (doc1, dec1, v1) =>
      match runTimer (S (characterCount doc)) clock 1 doc1 dec1 with
      | Some (doc2, dec2, v2) => Some (doc2, dec2, v1 ++ v2)
      | None => None
      end
  | None => None
  end.

End DecoratorClass.

(** ** Log levels *)

Inductive LogLevel := LogNote | LogError | LogWarning | LogDebug | LogTrace.

(** Modelled from the spec: [logLevelLabel] of [common/log.h] is not
    among the sources; the labels are the ones the specification names
    (Note, Error, Warning, Debug, Trace). *)
Definition logLevelLabel (level : LogLevel) : QString :=
  match level with
  | LogNote => qs "Note"
  | LogError => qs "Error"
  | LogWarning => qs "Warning"
  | LogDebug => qs "Debug"
  | LogTrace => qs "Trace"
  end.

(** ** class LogDecorator *)

Module LogDecorator.

(** [QRegExp("^.*: ")]. *)
Definition m_re : QRegExp :=
  RxSeq RxCaret (RxSeq (RxStar RxAny) (RxSeq (RxChar ":") (RxChar " "))).

Section WithFont.
Variable font : QFont.

Definition m_labelNote := logLevelLabel LogNote.
Definition m_labelError := logLevelLabel LogError.
Definition m_labelWarning := logLevelLabel LogWarning.
Definition m_labelDebug := logLevelLabel LogDebug.
Definition m_labelTrace := logLevelLabel LogTrace.

Definition boldFont : QFont := setBold font true.

Definition normalFormat : QTextCharFormat :=
  setForeground
    (setBackground (setFont QTextCharFormat_new boldFont) Qt_white)
    Qt_black.

Definition m_noteLogLevelFormat := normalFormat.
Definition m_errorLogLevelFormat := setForeground normalFormat Qt_red.
Definition m_warningLogLevelFormat := setForeground normalFormat Qt_darkRed.
Definition m_debugLogLevelFormat :=
  setForeground normalFormat (QColor_rgb 100 100 200).
Definition m_traceLogLevelFormat :=
  setForeground normalFormat (QColor_rgb 200 150 100).

(** [LogDecorator::decorate(QTextCursor *tc)]. *)
Definition decorate (tc : QTextCursor) (doc : QTextDocument)
  : QTextDocument :=
  let text := selectedText tc doc in
  if startsWith text m_labelNote then
    setCharFormat tc m_noteLogLevelFormat doc
  else if startsWith text m_labelError then
    setCharFormat tc m_errorLogLevelFormat doc
  else if startsWith text m_labelWarning then
    setCharFormat tc m_warningLogLevelFormat doc
  else if startsWith text m_labelDebug then
    setCharFormat tc m_debugLogLevelFormat doc
  else if startsWith text m_labelTrace then
    setCharFormat tc m_traceLogLevelFormat doc
  else doc.
End WithFont.

End LogDecorator.

(** ** class StringDecorator *)

Module StringDecorator.

(** The pattern of the constructor: a double quote, [[^dquote]*], a
    double quote; or the same with single quotes. *)
Definition m_re : QRegExp :=
  RxAlt
    (RxSeq (RxChar dquote) (RxSeq (RxStar (RxNoneOf [dquote])) (RxChar dquote)))
    (RxSeq (RxChar squote) (RxSeq (RxStar (RxNoneOf [squote])) (RxChar squote))).

Definition m_stringFormat : QTextCharFormat :=
  setForeground QTextCharFormat_new Qt_darkGreen.

(** [StringDecorator::decorate(QTextCursor *tc)]. *)
Definition decorate (tc : QTextCursor) (doc : QTextDocument) : QTextDocument :=
  setCharFormat tc m_stringFormat doc.

End StringDecorator.

(** ** LogDialog *)

(** The pattern [showLogLines] builds from a label: a newline, the
    label, and [[^newline]*]. *)
Definition lineFilterPattern (label : QString) : QRegExp :=
  RxSeq (RxChar newline) (RxSeq (RxLiteral label) (RxStar (RxNoneOf [newline]))).

(** [showLogLines(content, show, level)]. *)
Definition showLogLines (content : QString) (show : bool) (level : LogLevel)
  : QString :=
  if show then content
  else
    let label := logLevelLabel level in
    let re := lineFilterPattern label in
    remove re content.

Record LogDialog := {
  textBrowserLog : QTextDocument;
  m_logDecorator : Decorator;
  m_stringDecorator : Decorator;
  m_showError : bool;
  m_showWarning : bool;
  m_showNote : bool;
  m_showDebug : bool;
  m_showTrace : bool
}.

(** The text [updateLog] puts in the browser, [log] being what
    [readLogFile()] returned. *)
Definition logContent (d : LogDialog) (log : QString) : QString :=
  let content := replace (newline :: qs "CopyQ ") [newline] log in
  let content := showLogLines content (m_showError d) LogError in
  let content := showLogLines content (m_showWarning d) LogWarning in
  let content := showLogLines content (m_showNote d) LogNote in
  let content := showLogLines content (m_showDebug d) LogDebug in
  let content := showLogLines content (m_showTrace d) LogTrace in
  content.

(** The font of the log browser, [QFont("Monospace")]. *)
Definition logFont : QFont := {| family := "Monospace"; bold := false |}.

Definition setDocument (d : LogDialog) (doc : QTextDocument)
  (logDec stringDec : Decorator) : LogDialog :=
  {| textBrowserLog := doc;
     m_logDecorator := logDec;
     m_stringDecorator := stringDec;
     m_showError := m_showError d;
     m_showWarning := m_showWarning d;
     m_showNote := m_showNote d;
     m_showDebug := m_showDebug d;
     m_showTrace := m_showTrace d |}.

(** [LogDialog::updateLog()], [log] being what [readLogFile()] returns;
    [elapsedLog] and [elapsedString] are the clocks of the two batches
    that run inside it.  ([QTextEdit::setPlainText] gives the new text
    the character format at the cursor of the browser, which
    [moveCursor(QTextCursor::End)] left at the end of the earlier
    document: the default format, as here, when that document is empty
    or ends with an empty block.) *)
Definition updateLog (elapsedLog elapsedString : nat -> Z) (log : QString)
  (d : LogDialog) : option LogDialog :=
  let doc := setPlainText (logContent d log) in
  match decorate LogDecorator.m_re (LogDecorator.decorate logFont)
          elapsedLog doc (m_logDecorator d) with
  | Some (doc1, logDec, _) =>
      match decorate StringDecorator.m_re StringDecorator.decorate
              elapsedString doc1 (m_stringDecorator d) with
      | Some (doc2, stringDec, _) => Some (setDocument d doc2 logDec stringDec)
      | None => None
      end
  | None => None
  end.

(** [LogDialog::showNote(bool show)]; the four other slots differ in the
    flag they set. *)
Definition showNote (elapsedLog elapsedString : nat -> Z) (log : QString)
  (show : bool) (d : LogDialog) : option LogDialog :=
  updateLog elapsedLog elapsedString log
    {| textBrowserLog := textBrowserLog d;
       m_logDecorator := m_logDecorator d;
       m_stringDecorator := m_stringDecorator d;
       m_showError := m_showError d;
       m_showWarning := m_showWarning d;
       m_showNote := show;
       m_showDebug := m_showDebug d;
       m_showTrace := m_showTrace d |}.

(** The timers of the two decorators, served by the event loop. *)
Inductive TimerEvent := LogTimer | StringTimer.

Definition timerEvent (ev : TimerEvent) (elapsed : nat -> Z) (d : LogDialog)
  : option LogDialog :=
  match ev with
  | LogTimer =>
      if m_timerDecorate (m_logDecorator d) then
        match timeout LogDecorator.m_re (LogDecorator.decorate logFont)
                elapsed (textBrowserLog d) (m_logDecorator d) with
        | Some (doc, dec, _) => Some (setDocument d doc dec (m_stringDecorator d))
        | None => None
        end
      else Some d
  | StringTimer =>
      if m_timerDecorate (m_stringDecorator d) then
        match timeout StringDecorator.m_re StringDecorator.decorate
                elapsed (textBrowserLog d) (m_stringDecorator d) with
        | Some (doc, dec, _) => Some (setDocument d doc (m_logDecorator d) dec)
        | None => None
        end
      else Some d
  end.

Fixpoint runEvents (evs : list (TimerEvent * (nat -> Z))) (d : LogDialog)
  : option LogDialog :=
  match evs with
  | [] => Some d
  | (ev, elapsed) :: evs' =>
      match timerEvent ev elapsed d with
      | Some d' => runEvents evs' d'
      | None => None
      end
  end.

(** No continuation is pending and both passes are over. *)
Definition idle (d : LogDialog) : Prop :=
  m_logDecorator d = {| m_tc := None; m_timerDecorate := false |} /\
  m_stringDecorator d = {| m_tc := None; m_timerDecorate := false |}.

(** ** The search, position by position

    [matchAt re blocks p] is a match attempt at position [p] of the
    document, inside the block that holds [p]; [scanDown] tries the
    positions from [p] down to 0; [matchesBelow re blocks n] lists the
    matches that start below position [n], the last one first. *)

Definition matchAt (re : QRegExp) (blocks : list QString) (p : nat)
  : option QTextCursor :=
  match blocksFind blocks 0 p [] with
  | (bpos, t) :: _ =>
      match matchedLength CaseInsensitive re (searchText t) (p - bpos) with
      | Some len => Some {| anchor := p; position := p + len |}
      | None => None
      end
  | [] => None
  end.

Fixpoint scanDown (re : QRegExp) (blocks : list QString) (p : nat)
  : option QTextCursor :=
  match matchAt re blocks p with
  | Some c => Some c
  | None =>
      match p with
      | 0 => None
      | S p' => scanDown re blocks p'
      end
  end.

Fixpoint matchesBelow (re : QRegExp) (blocks : list QString) (n : nat)
  : list QTextCursor :=
  match n with
  | 0 => []
  | S p =>
      match matchAt re blocks p with
      | Some c => c :: matchesBelow re blocks p
      | None => matchesBelow re blocks p
      end
  end.

(** ** A pass, without its slicing in batches

    [visits doc tc visited doc']: searching backward from [tc] in [doc]
    and decorating every match found, until no match precedes the
    cursor, hands the cursors [visited] to the hook, in this order, and
    leaves the document [doc']. *)

Section PassSemantics.

Variable m_re : QRegExp.
Variable decorateCursor : QTextCursor -> QTextDocument -> QTextDocument.

Inductive visits : QTextDocument -> QTextCursor -> list QTextCursor ->
                   QTextDocument -> Prop :=
| visits_done doc tc :
    find m_re doc tc = None -> visits doc tc [] doc
| visits_step doc tc c visited doc' :
    find m_re doc tc = Some c ->
    visits (decorateCursor c doc) c visited doc' ->
    visits doc tc (c :: visited) doc'.

(** The hook applied at the cursors of [visited], in order. *)
Definition decorateAll (visited : list QTextCursor) (doc : QTextDocument)
  : QTextDocument :=
  fold_left (fun d c => decorateCursor c d) visited doc.

End PassSemantics.

(** Cursors whose selections start at strictly decreasing positions, all
    below [bound]. *)
Fixpoint decreasingFrom (bound : nat) (visited : list QTextCursor) : Prop :=
  match visited with
  | [] => True
  | c :: rest => selectionStart c < bound /\ decreasingFrom (selectionStart c) rest
  end.

Definition idleDecorator : Decorator :=
  {| m_tc := None; m_timerDecorate := false |}.

(** ** Styling hooks

    A hook that only styles gives the selected text to a classifier and
    sets the format the classifier returns, if any, on the selection.
    [styleAt w c] is what such a hook does to the format at each
    position, [w] being the classifier's answer at the cursor [c];
    [styleAll] composes it over the cursors of a pass. *)

Definition plainChars (blocks : list QString) : QString :=
  flat_map (fun t => t ++ [newline]) blocks.

Definition selectedTextIn (blocks : list QString) (tc : QTextCursor) : QString :=
  firstn (selectionEnd tc - selectionStart tc)
    (skipn (selectionStart tc) (plainChars blocks)).

Definition styleAt (w : option QTextCharFormat) (c : QTextCursor) (p : nat)
  (old : QTextCharFormat) : QTextCharFormat :=
  match w with
  | Some f => if inSelection c p then f else old
  | None => old
  end.

Fixpoint styleAll (classify : QString -> option QTextCharFormat)
  (blocks : list QString) (visited : list QTextCursor) (p : nat)
  (old : QTextCharFormat) : QTextCharFormat :=
  match visited with
  | [] => old
  | c :: rest =>
      styleAll classify blocks rest p
        (styleAt (classify (selectedTextIn blocks c)) c p old)
  end.

Definition stylingHook (classify : QString -> option QTextCharFormat)
  (hook : QTextCursor -> QTextDocument -> QTextDocument) : Prop :=
  forall tc doc,
    hook tc doc = match classify (selectedText tc doc) with
                  | Some f => setCharFormat tc f doc
                  | None => doc
                  end.

(** ** Lines and spans

    [blockPositions start blocks]: every block with its position in the
    document.  [quotedAt q t i n]: the [n] characters of [t] from index
    [i] on are a [q], characters other than [q], and a [q]. *)

Fixpoint blockPositions (start : nat) (blocks : list QString)
  : list (nat * QString) :=
  match blocks with
  | [] => []
  | t :: rest => (start, t) :: blockPositions (start + blockLength t) rest
  end.

Definition quotedAt (q : QChar) (t : QString) (i n : nat) : Prop :=
  exists pre body rest,
    t = pre ++ q :: body ++ q :: rest /\ length pre = i /\
    n = length body + 2 /\ ~ In q body.

(** The number of leading characters of [s] that satisfy [P]. *)
Fixpoint spanLen (P : QChar -> bool) (s : QString) : nat :=
  match s with
  | c :: s' => if P c then S (spanLen P s') else 0
  | [] => 0
  end.

(** A colon at index [n] of [t] followed by a space; the search takes a
    no-break space for a space. *)
Definition colonSpaceAt (t : QString) (n : nat) : Prop :=
  nth_error t n = Some ":"%char /\
  (nth_error t (S n) = Some space \/ nth_error t (S n) = Some Nbsp).

(** A span of the document that lies in one block and is a quoted
    string there: a quote character, double or single, characters other
    than it, and the same quote character. *)
Definition quotedSpan (doc : QTextDocument) (a b : nat) : Prop :=
  exists bpos t i n q,
    In (bpos, t) (blockPositions 0 (blockTexts doc)) /\
    (q = dquote \/ q = squote) /\ quotedAt q t i n /\
    a = bpos + i /\ b = a + n.

(** The formats of the characters at positions [a] to [b - 1]. *)
Definition spanFormats (doc : QTextDocument) (a b : nat)
  : list QTextCharFormat :=
  map snd (firstn (b - a) (skipn a (documentChars doc))).

(** The header of a line as the specification words it: the span from the
    start of a line up to and including its first colon and space. *)
Definition headerToFirstColonSpace (doc : QTextDocument) (c : QTextCursor)
  : Prop :=
  exists bpos t n,
    In (bpos, t) (blockPositions 0 (blockTexts doc)) /\
    anchor c = bpos /\ position c = bpos + n + 2 /\
    colonSpaceAt t n /\ forall j, j < n -> ~ colonSpaceAt t j.

(** ** Documents of the examples *)

Definition headerDoc : QTextDocument := setPlainText (qs "Error: a: b").

(** The text [he said "hi" and 'bye']. *)
Definition quotesText : QString :=
  qs "he said " ++ dquote :: qs "hi" ++ dquote :: qs " and 'bye'".

(** A text with a lone double quote. *)
Definition loneQuoteText : QString := qs "he said " ++ dquote :: qs "hi".

(** Two double quotes that pair up and a third one with no partner. *)
Definition strayQuoteText : QString :=
  dquote :: qs "hi" ++ dquote :: qs " x " ++ dquote :: qs "z".

(** A double-quoted string that runs over a line break. *)
Definition twoLineQuoteText : QString :=
  dquote :: qs "a" ++ newline :: qs "b" ++ [dquote].

(** A quoted span as the specification words it, over the whole text
    of the document. *)
Definition quotedInText (doc : QTextDocument) (a b : nat) : Prop :=
  exists q, (q = dquote \/ q = squote) /\
            quotedAt q (toPlainText doc) a (b - a).

(** ** The label classifier, as the specification words it

    The labels are tried in the order Note, Error, Warning, Debug,
    Trace; the first one the text starts with gives its format. *)

Definition knownLabels : list LogLevel :=
  [LogNote; LogError; LogWarning; LogDebug; LogTrace].

Definition levelFormat (font : QFont) (level : LogLevel) : QTextCharFormat :=
  match level with
  | LogNote => LogDecorator.m_noteLogLevelFormat font
  | LogError => LogDecorator.m_errorLogLevelFormat font
  | LogWarning => LogDecorator.m_warningLogLevelFormat font
  | LogDebug => LogDecorator.m_debugLogLevelFormat font
  | LogTrace => LogDecorator.m_traceLogLevelFormat font
  end.

Definition classifyLabel (font : QFont) (text : QString)
  : option QTextCharFormat :=
  option_map (levelFormat font)
    (List.find (fun level => startsWith text (logLevelLabel level)) knownLabels).

Definition errorDoc : QTextDocument :=
  setPlainText (qs "Error: failed" ++ [newline]).

Definition unknownDoc : QTextDocument :=
  setPlainText (qs "Unknown: hi" ++ [newline]).

(** ** The scenario of the log with an error line and a note line *)

Definition rawLog : QString :=
  qs "CopyQ Error: failed 'x' here" ++ newline :: qs "CopyQ Note: ok" ++ [newline].




(** A dialog that shows every level but Note. *)
Definition noteHidden : LogDialog :=
  {| textBrowserLog := [];
     m_logDecorator := idleDecorator;
     m_stringDecorator := idleDecorator;
     m_showError := true;
     m_showWarning := true;
     m_showNote := false;
     m_showDebug := true;
     m_showTrace := true |}.


(** ** The log as lines

    [joinLines first rest] is the text whose first line is [first] and
    whose further lines are [rest], each after a newline.  A further
    line loses a leading [CopyQ ] ([stripNoise]) and stays when no
    hidden level's label starts it ([lineVisible]). *)

Definition joinLines (first : QString) (rest : list QString) : QString :=
  first ++ flat_map (fun l => newline :: l) rest.

Definition stripNoise (l : QString) : QString :=
  if startsWith l (qs "CopyQ ") then skipn 6 l else l.

Definition levelShown (d : LogDialog) (level : LogLevel) : bool :=
  match level with
  | LogError => m_showError d
  | LogWarning => m_showWarning d
  | LogNote => m_showNote d
  | LogDebug => m_showDebug d
  | LogTrace => m_showTrace d
  end.

Definition lineShown (show : bool) (level : LogLevel) (l : QString) : bool :=
  show || negb (startsWith l (logLevelLabel level)).

Definition lineVisible (d : LogDialog) (l : QString) : bool :=
  forallb (fun level => lineShown (levelShown d level) level l)
    [LogError; LogWarning; LogNote; LogDebug; LogTrace].

(** A text that is empty or starts a new line. *)
Definition lineBreak (tail : QString) : Prop :=
  tail = [] \/ exists t, tail = newline :: t.

(** ** The rest of the dialog: slots, check boxes, constructor *)

(** [LogDialog::showError(bool show)]. *)
Definition showError (elapsedLog elapsedString : nat -> Z) (log : QString)
  (show : bool) (d : LogDialog) : option LogDialog :=
  updateLog elapsedLog elapsedString log
    {| textBrowserLog := textBrowserLog d;
       m_logDecorator := m_logDecorator d;
       m_stringDecorator := m_stringDecorator d;
       m_showError := show;
       m_showWarning := m_showWarning d;
       m_showNote := m_showNote d;
       m_showDebug := m_showDebug d;
       m_showTrace := m_showTrace d |}.

(** [LogDialog::showWarning(bool show)]. *)
Definition showWarning (elapsedLog elapsedString : nat -> Z) (log : QString)
  (show : bool) (d : LogDialog) : option LogDialog :=
  updateLog elapsedLog elapsedString log
    {| textBrowserLog := textBrowserLog d;
       m_logDecorator := m_logDecorator d;
       m_stringDecorator := m_stringDecorator d;
       m_showError := m_showError d;
       m_showWarning := show;
       m_showNote := m_showNote d;
       m_showDebug := m_showDebug d;
       m_showTrace := m_showTrace d |}.

(** [LogDialog::showDebug(bool show)]. *)
Definition showDebug (elapsedLog elapsedString : nat -> Z) (log : QString)
  (show : bool) (d : LogDialog) : option LogDialog :=
  updateLog elapsedLog elapsedString log
    {| textBrowserLog := textBrowserLog d;
       m_logDecorator := m_logDecorator d;
       m_stringDecorator := m_stringDecorator d;
       m_showError := m_showError d;
       m_showWarning := m_showWarning d;
       m_showNote := m_showNote d;
       m_showDebug := show;
       m_showTrace := m_showTrace d |}.

(** [LogDialog::showTrace(bool show)]. *)
Definition showTrace (elapsedLog elapsedString : nat -> Z) (log : QString)
  (show : bool) (d : LogDialog) : option LogDialog :=
  updateLog elapsedLog elapsedString log
    {| textBrowserLog := textBrowserLog d;
       m_logDecorator := m_logDecorator d;
       m_stringDecorator := m_stringDecorator d;
       m_showError := m_showError d;
       m_showWarning := m_showWarning d;
       m_showNote := m_showNote d;
       m_showDebug := m_showDebug d;
       m_showTrace := show |}.

(** The slots a check box can be connected to, [SLOT(showError(bool))]
    and the like, and the call of one. *)
Inductive Slot :=
| SLOT_showError | SLOT_showWarning | SLOT_showNote | SLOT_showDebug
| SLOT_showTrace.

Definition invokeSlot (slot : Slot) (elapsedLog elapsedString : nat -> Z)
  (log : QString) (show : bool) (d : LogDialog) : option LogDialog :=
  match slot with
  | SLOT_showError => showError elapsedLog elapsedString log show d
  | SLOT_showWarning => showWarning elapsedLog elapsedString log show d
  | SLOT_showNote => showNote elapsedLog elapsedString log show d
  | SLOT_showDebug => showDebug elapsedLog elapsedString log show d
  | SLOT_showTrace => showTrace elapsedLog elapsedString log show d
  end.

(** A [QCheckBox] of the filter row: its text, its state and the slot
    its [toggled(bool)] signal is connected to. *)
Record QCheckBox := {
  cb_text : QString;
  cb_checked : bool;
  cb_toggled : Slot
}.

(** [addFilterCheckBox(layout, level, slot)]: a new check box with the
    level's label, checked, connected to [slot] and added at the end of
    the layout.  ([setChecked(true)] comes before [connect], so it calls
    no slot.) *)
Definition addFilterCheckBox (layout : list QCheckBox) (level : LogLevel)
  (slot : Slot) : list QCheckBox :=
  layout ++ [{| cb_text := logLevelLabel level; cb_checked := true;
                cb_toggled := slot |}].

(** The dialog with the check boxes of [ui->layoutFilters]. *)
Record LogDialogWindow := {
  dialog : LogDialog;
  layoutFilters : list QCheckBox
}.

(** [LogDialog::LogDialog]: every level shown, an empty browser, two
    new decorators (null cursor, timer not started), the five check
    boxes, then [updateLog()]. *)
Definition LogDialog_new (elapsedLog elapsedString : nat -> Z) (log : QString)
  : option LogDialogWindow :=
  let d :=
    {| textBrowserLog := setPlainText [];
       m_logDecorator := {| m_tc := None; m_timerDecorate := false |};
       m_stringDecorator := {| m_tc := None; m_timerDecorate := false |};
       m_showError := true;
       m_showWarning := true;
       m_showNote := true;
       m_showDebug := true;
       m_showTrace := true |} in
  let layout := [] in
  let layout := addFilterCheckBox layout LogError SLOT_showError in
  let layout := addFilterCheckBox layout LogWarning SLOT_showWarning in
  let layout := addFilterCheckBox layout LogNote SLOT_showNote in
  let layout := addFilterCheckBox layout LogDebug SLOT_showDebug in
  let layout := addFilterCheckBox layout LogTrace SLOT_showTrace in
  match updateLog elapsedLog elapsedString log d with
  | Some d' => Some {| dialog := d'; layoutFilters := layout |}
  | None => None
  end.

(** The state of the [i]-th check box of a layout flipped. *)
Fixpoint toggleCheckBox (layout : list QCheckBox) (i : nat) : list QCheckBox :=
  match layout, i with
  | [], _ => []
  | cb :: rest, 0 =>
      {| cb_text := cb_text cb; cb_checked := negb (cb_checked cb);
         cb_toggled := cb_toggled cb |} :: rest
  | cb :: rest, S i' => cb :: toggleCheckBox rest i'
  end.

(** What the event loop delivers to the dialog: a click on the [i]-th
    check box, which flips it and emits [toggled] with the new state to
    the connected slot ([log] is what [readLogFile()] returns then), or
    the timeout of a decorator's timer. *)
Inductive UiEvent :=
| Click (i : nat) (log : QString) (elapsedLog elapsedString : nat -> Z)
| Timeout (timer : TimerEvent) (elapsed : nat -> Z).

Definition uiEvent (ev : UiEvent) (w : LogDialogWindow)
  : option LogDialogWindow :=
  match ev with
  | Click i log elapsedLog elapsedString =>
      match nth_error (layoutFilters w) i with
      | Some cb =>
          match invokeSlot (cb_toggled cb) elapsedLog elapsedString log
                  (negb (cb_checked cb)) (dialog w) with
          | Some d => Some {| dialog := d;
                              layoutFilters := toggleCheckBox (layoutFilters w) i |}
          | None => None
          end
      | None => Some w
      end
  | Timeout timer elapsed =>
      match timerEvent timer elapsed (dialog w) with
      | Some d => Some {| dialog := d; layoutFilters := layoutFilters w |}
      | None => None
      end
  end.

Fixpoint runUi (evs : list UiEvent) (w : LogDialogWindow)
  : option LogDialogWindow :=
  match evs with
  | [] => Some w
  | ev :: evs' =>
      match uiEvent ev w with
      | Some w' => runUi evs' w'
      | None => None
      end
  end.

(** The log read at the last refresh: the one of the last click on one
    of the five check boxes, or the one the constructor read. *)
Fixpoint lastLog (log : QString) (evs : list UiEvent) : QString :=
  match evs with
  | [] => log
  | Click i log' _ _ :: evs' =>
      lastLog (if i <? 5 then log' else log) evs'
  | Timeout _ _ :: evs' => lastLog log evs'
  end.

(** The order of the check boxes in the row. *)
Definition filterLevels : list LogLevel :=
  [LogError; LogWarning; LogNote; LogDebug; LogTrace].

(** The format of the character at a position of the document. *)
Definition charFormat (doc : QTextDocument) (p : nat)
  : option QTextCharFormat :=
  option_map snd (nth_error (documentChars doc) p).

(** How many timeouts of a timer a sequence of events holds. *)
Fixpoint timeouts (timer : TimerEvent) (evs : list (TimerEvent * (nat -> Z)))
  : nat :=
  match evs with
  | [] => 0
  | (LogTimer, _) :: evs' =>
      (match timer with LogTimer => 1 | StringTimer => 0 end) + timeouts timer evs'
  | (StringTimer, _) :: evs' =>
      (match timer with LogTimer => 0 | StringTimer => 1 end) + timeouts timer evs'
  end.

(** The slot the constructor connects the check box of a level to. *)
Definition slotOf (level : LogLevel) : Slot :=
  match level with
  | LogError => SLOT_showError
  | LogWarning => SLOT_showWarning
  | LogNote => SLOT_showNote
  | LogDebug => SLOT_showDebug
  | LogTrace => SLOT_showTrace
  end.

(** A bound on the timeouts a decorator still needs before its timer is
    at rest: none when the timer is not running, one for a null cursor,
    and one more than the start of its selection for a cursor. *)
Definition pending (dec : Decorator) : nat :=
  if m_timerDecorate dec then
    match m_tc dec with
    | Some c => S (selectionStart c)
    | None => 1
    end
  else 0.

(** A decorator between batches: a cursor that is not null has the
    timer running. *)
Definition betweenBatches (dec : Decorator) : Prop :=
  m_timerDecorate dec = false -> m_tc dec = None.

Definition sameFlags (d d' : LogDialog) : Prop :=
  forall level, levelShown d' level = levelShown d level.

(** What holds of the window between two events, [log] being the log as
    last read: the browser holds the filtered log, each decorator is
    between batches, and the check boxes are the five of the
    constructor, each showing the flag of its level. *)
Definition windowState (log : QString) (w : LogDialogWindow) : Prop :=
  blockTexts (textBrowserLog (dialog w))
  = blockTexts (setPlainText (logContent (dialog w) log)) /\
  betweenBatches (m_logDecorator (dialog w)) /\
  betweenBatches (m_stringDecorator (dialog w)) /\
  Forall2
    (fun cb level =>
       cb_text cb = logLevelLabel level /\ cb_toggled cb = slotOf level /\
       cb_checked cb = levelShown (dialog w) level)
    (layoutFilters w) filterLevels.

(** ** Formats, write by write

    A write is what a styling hook does at one match: the classifier's
    answer and the cursor.  [styleWrites] applies the writes of a list
    in order; [writesOf] are the writes a hook makes at the cursors
    handed to it. *)

Definition Write : Type := (option QTextCharFormat * QTextCursor)%type.

Fixpoint styleWrites (ws : list Write) (p : nat) (old : QTextCharFormat)
  : QTextCharFormat :=
  match ws with
  | [] => old
  | (w, c) :: rest => styleWrites rest p (styleAt w c p old)
  end.

Definition writesOf (classify : QString -> option QTextCharFormat)
  (blocks : list QString) (visited : list QTextCursor) : list Write :=
  map (fun c => (classify (selectedTextIn blocks c), c)) visited.

(** Position [i] is the separator that ends a block. *)
Fixpoint sepAt (doc : QTextDocument) (i : nat) : bool :=
  match doc with
  | [] => false
  | b :: rest =>
      if i <? length b then false
      else if i =? length b then true
      else sepAt rest (i - blockLength b)
  end.

(** The header of a line: the span from the start of the line up to and
    including its last colon that a space follows. *)
Definition headerSpan (doc : QTextDocument) (a b : nat) : Prop :=
  exists bpos t n,
    In (bpos, t) (blockPositions 0 (blockTexts doc)) /\
    a = bpos /\ b = bpos + n + 2 /\
    colonSpaceAt t n /\ forall j, n < j -> ~ colonSpaceAt t j.

(** Position [p] lies in the header of a line, whose text is [text]. *)
Definition inHeader (doc : QTextDocument) (p : nat) (text : QString) : Prop :=
  exists a b,
    headerSpan doc a b /\ a <= p < b /\
    selectedText {| anchor := a; position := b |} doc = text.

(** Position [p] lies in a quoted string. *)
Definition inQuoted (doc : QTextDocument) (p : nat) : Prop :=
  exists a b, quotedSpan doc a b /\ a <= p < b.

(** How far the pass of a decorator has come: [done] are the matches
    handed to the hook so far, those still to come lie below the
    cursor. *)
Definition passProgress (re : QRegExp) (blocks : list QString)
  (dec : Decorator) (done : list QTextCursor) : Prop :=
  match m_tc dec with
  | None => done = matchesBelow re blocks (characterCount blocks - 1)
  | Some c =>
      matchesBelow re blocks (characterCount blocks - 1)
      = done ++ matchesBelow re blocks (selectionStart c) /\
      selectionStart c <= characterCount blocks
  end.

(** The dialog while the two passes over the document [doc0] are under
    way: the browser holds [doc0] with the writes made so far, each
    decorator's by its own pass. *)
Definition stylingState (doc0 : QTextDocument) (d : LogDialog) : Prop :=
  exists doneLog doneString ws,
    textBrowserLog d = mapFormats (styleWrites ws) 0 doc0 /\
    (forall w, In w ws <->
       In w (writesOf (classifyLabel logFont) (blockTexts doc0) doneLog) \/
       In w (writesOf (fun _ => Some StringDecorator.m_stringFormat)
               (blockTexts doc0) doneString)) /\
    passProgress LogDecorator.m_re (blockTexts doc0) (m_logDecorator d) doneLog /\
    passProgress StringDecorator.m_re (blockTexts doc0) (m_stringDecorator d)
      doneString.


(** The writes of a whole pass of each decorator over [doc]. *)
Definition logWrites (font : QFont) (doc : QTextDocument) : list Write :=
  writesOf (classifyLabel font) (blockTexts doc)
    (matchesBelow LogDecorator.m_re (blockTexts doc) (characterCount doc - 1)).




(** A log whose first line has a quoted string inside its header. *)
Definition overlapLog : QString :=
  qs "Error: 'a': b" ++ newline :: qs "Debug: c".

(** A clock that is past the budget at its first reading, and one that
    never gets there. *)
Definition slowClock : nat -> Z := fun _ => 25%Z.
Definition fastClock : nat -> Z := fun _ => 0%Z.


(** ** Cursors and the documents they are on

    A [QTextCursor] is a cursor on one [QTextDocument] object, and
    [decorateBatch] searches [m_tc.document()].  [Documents] holds the
    document objects of the program by identity, [None] standing for
    one that has been destroyed: the destructor of a [QTextDocument]
    detaches every cursor on it, and [QTextCursor::isNull()] is true of
    a detached cursor as it is of a default-constructed one.
    [setPlainText] on a document keeps the object, and the cursors on
    it stay on it. *)












Section DecoratorOnDocuments.

Variable m_re : QRegExp.
Variable decorateCursor : QTextCursor -> QTextDocument -> QTextDocument.




End DecoratorOnDocuments.



(** ** Logs

    A plain log holds no carriage return, at which a document starts a
    block as it does at a newline, and no no-break space, which
    [toPlainText] gives as a space.  A line-terminated log is empty or
    ends with a newline, as a log written line by line does; the
    document made of it ends with an empty block. *)






(** * Theorems *)

Example replace_ex :
  replace (qs "ab") (qs "X") (qs "zababab") = qs "zXXX".
Proof. reflexivity. Qed.

Example remove_ex :
  remove (RxSeq (RxChar "a") (RxStar (RxChar "b"))) (qs "cabbbcab") = qs "cc".
Proof. reflexivity. Qed.

(** ** Plain text and blocks *)

Lemma splitBlocks_cons s : exists b bs, splitBlocks s = b :: bs.
Proof.
  destruct s as [|c s]; [simpl; eauto|].
  simpl. destruct (Ascii.eqb c newline); [eauto|].
  destruct (splitBlocks s); eauto.
Qed.

Lemma textBlocks_cons s : exists b bs, textBlocks s = b :: bs.
Proof.
  destruct s as [|c s]; [simpl; eauto|].
  cbn [textBlocks]. destruct (Ascii.eqb c newline); [eauto|].
  destruct (Ascii.eqb c CR).
  - destruct s as [|c' s']; [eauto|]. destruct (Ascii.eqb c' newline); eauto.
  - destruct (textBlocks s); eauto.
Qed.






(** ** Blocks and positions *)

Lemma blocksFind_head_ge blocks : forall start pos prev bpos t l,
  blocksFind blocks start pos prev = (bpos, t) :: l -> start <= bpos.
Proof.
  induction blocks as [|t0 rest IH]; intros start pos prev bpos t l H;
    simpl in H; [discriminate|].
  destruct (pos <? start + blockLength t0).
  - inversion H; subst; lia.
  - apply IH in H. unfold blockLength in H. lia.
Qed.

Lemma blocksFind_same_block blocks : forall start pos prev bpos t l,
  blocksFind blocks start pos prev = (bpos, t) :: l ->
  start <= pos ->
  bpos <= pos < bpos + blockLength t /\
  forall p, bpos <= p < bpos + blockLength t ->
            blocksFind blocks start p prev = (bpos, t) :: l.
Proof.
  induction blocks as [|t0 rest IH]; intros start pos prev bpos t l H Hs;
    simpl in H; [discriminate|].
  destruct (Nat.ltb_spec pos (start + blockLength t0)).
  - inversion H; subst. split; [lia|].
    intros p Hp. simpl.
    destruct (Nat.ltb_spec p (bpos + blockLength t)); [reflexivity|lia].
  - pose proof (blocksFind_head_ge _ _ _ _ _ _ _ H) as Hge.
    apply IH in H; [|lia]. destruct H as [Hb Hall]. split; [exact Hb|].
    intros p Hp. simpl.
    destruct (Nat.ltb_spec p (start + blockLength t0)); [lia|].
    apply Hall. exact Hp.
Qed.

Lemma blocksFind_previous blocks : forall start pos prev bpos t l,
  blocksFind blocks start pos prev = (bpos, t) :: l ->
  (bpos = start /\ l = prev) \/
  (exists bpos' t' l',
      l = (bpos', t') :: l' /\ bpos' + blockLength t' = bpos /\
      blocksFind blocks start (bpos - 1) prev = l).
Proof.
  induction blocks as [|t0 rest IH]; intros start pos prev bpos t l H;
    simpl in H; [discriminate|].
  destruct (Nat.ltb_spec pos (start + blockLength t0)).
  - inversion H; subst. left. split; reflexivity.
  - right. destruct (IH _ _ _ _ _ _ H) as [[Hb Hl]|(bpos' & t' & l' & Hl & Hb & Hf)].
    + subst. exists start, t0, prev. repeat split.
      simpl. destruct (Nat.ltb_spec (start + blockLength t0 - 1) (start + blockLength t0));
        [reflexivity|unfold blockLength in *; lia].
    + exists bpos', t', l'. repeat split; try assumption.
      simpl. subst l.
      pose proof (blocksFind_head_ge _ _ _ _ _ _ _ Hf) as Hge.
      destruct (Nat.ltb_spec (bpos - 1) (start + blockLength t0));
        [unfold blockLength in *; lia|exact Hf].
Qed.

Lemma blocksFind_some blocks : forall start pos prev,
  start <= pos < start + characterCount blocks ->
  blocksFind blocks start pos prev <> [].
Proof.
  induction blocks as [|t0 rest IH]; intros start pos prev H; simpl in *.
  - lia.
  - destruct (Nat.ltb_spec pos (start + blockLength t0)); [discriminate|].
    apply IH. unfold blockLength in *. lia.
Qed.

Lemma searchText_length t : length (searchText t) = length t.
Proof. apply length_map. Qed.

(** ** [find] is a scan of the positions below the cursor *)

Lemma lastIndexFrom_scanDown re blocks bpos t l : forall o,
  blocksFind blocks 0 bpos [] = (bpos, t) :: l ->
  o <= length t ->
  match lastIndexFrom CaseInsensitive re (searchText t) o with
  | Some (idx, len) =>
      Some {| anchor := bpos + idx; position := bpos + idx + len |}
  | None => match bpos with 0 => None | S q => scanDown re blocks q end
  end = scanDown re blocks (bpos + o).
Proof.
  intros o Hb. 
  destruct (blocksFind_same_block _ _ _ _ _ _ _ Hb (Nat.le_0_l _)) as [_ Hsame].
  induction o as [|o IH]; intros Ho.
  - rewrite Nat.add_0_r. simpl.
    replace (scanDown re blocks bpos) with
      (match matchAt re blocks bpos with
       | Some c => Some c
       | None => match bpos with 0 => None | S p' => scanDown re blocks p' end
       end) by (destruct bpos; reflexivity).
    unfold matchAt. rewrite Hb, Nat.sub_diag.
    destruct (matchedLength CaseInsensitive re (searchText t) 0); [|reflexivity].
    rewrite Nat.add_0_r. reflexivity.
  - replace (bpos + S o) with (S (bpos + o)) by lia. simpl.
    unfold matchAt. rewrite (Hsame (S (bpos + o))) by (unfold blockLength; lia).
    replace (S (bpos + o) - bpos) with (S o) by lia.
    destruct (matchedLength CaseInsensitive re (searchText t) (S o)).
    + replace (bpos + S o) with (S (bpos + o)) by lia. reflexivity.
    + apply IH. lia.
Qed.

Lemma findInBlock_scanDown re blocks pos bpos t l :
  blocksFind blocks 0 pos [] = (bpos, t) :: l ->
  match findInBlock re bpos t (pos - bpos) with
  | Some c => Some c
  | None => match bpos with 0 => None | S q => scanDown re blocks q end
  end = scanDown re blocks pos.
Proof.
  intros H.
  destruct (blocksFind_same_block _ _ _ _ _ _ _ H (Nat.le_0_l _)) as [Hb Hsame].
  assert (Hb' : blocksFind blocks 0 bpos [] = (bpos, t) :: l)
    by (apply Hsame; unfold blockLength; lia).
  unfold findInBlock, lastIndexIn. rewrite searchText_length.
  unfold blockLength in Hb.
  destruct (Nat.leb_spec (pos - bpos) (length t)); [|lia].
  pose proof (lastIndexFrom_scanDown re blocks bpos t l (pos - bpos) Hb' H0) as E.
  replace (bpos + (pos - bpos)) with pos in E by lia.
  rewrite <- E.
  destruct (lastIndexFrom CaseInsensitive re (searchText t) (pos - bpos)) as [[idx len]|];
    reflexivity.
Qed.

Lemma findInPrevious_scanDown re blocks : forall l pos bpos t,
  blocksFind blocks 0 pos [] = (bpos, t) :: l ->
  findInPrevious re l =
  match bpos with 0 => None | S q => scanDown re blocks q end.
Proof.
  induction l as [|[bpos' t'] l' IH]; intros pos bpos t H.
  - destruct (blocksFind_previous _ _ _ _ _ _ _ H) as [[Hb _]|(b & t0 & l0 & Hl & _)];
      [subst; reflexivity|discriminate].
  - destruct (blocksFind_previous _ _ _ _ _ _ _ H) as [[_ Hl]|(b & t0 & l0 & Hl & Hb & Hf)];
      [discriminate|].
    inversion Hl; subst b t0 l0. 
    assert (Hq : bpos = S (bpos' + length t')) by (unfold blockLength in Hb; lia).
    rewrite Hq. rewrite Hq in Hf. simpl in Hf. rewrite Nat.sub_0_r in Hf.
    cbn [findInPrevious].
    rewrite <- (findInBlock_scanDown re _ _ _ _ _ Hf).
    replace (bpos' + length t' - bpos') with (length t') by lia.
    replace (blockLength t' - 1) with (length t') by (unfold blockLength; lia).
    destruct (findInBlock re bpos' t' (length t')); [reflexivity|].
    apply (IH _ _ _ Hf).
Qed.

Lemma findFrom_scanDown re blocks pos :
  isEmpty re = false -> pos < characterCount blocks ->
  findFrom re blocks (S pos) = scanDown re blocks pos.
Proof.
  intros Hre Hpos. unfold findFrom. rewrite Hre.
  destruct (blocksFind blocks 0 pos []) as [|[bpos t] l] eqn:E.
  - exfalso. revert E. apply blocksFind_some. simpl. lia.
  - rewrite <- (findInBlock_scanDown re _ _ _ _ _ E).
    destruct (findInBlock re bpos t (pos - bpos)); [reflexivity|].
    apply (findInPrevious_scanDown re _ _ _ _ _ E).
Qed.

Lemma findFrom_found re blocks from c :
  findFrom re blocks from = Some c ->
  exists pos, from = S pos /\ isEmpty re = false /\ pos < characterCount blocks /\
              scanDown re blocks pos = Some c.
Proof.
  intros H. destruct from as [|pos].
  - unfold findFrom in H. destruct (isEmpty re); discriminate.
  - destruct (isEmpty re) eqn:Hre; [unfold findFrom in H; rewrite Hre in H; discriminate|].
    destruct (Nat.lt_ge_cases pos (characterCount blocks)) as [Hlt|Hge].
    + exists pos. rewrite findFrom_scanDown in H by assumption. auto.
    + unfold findFrom in H. rewrite Hre in H.
      destruct (blocksFind blocks 0 pos []) as [|[bpos t] l] eqn:E; [discriminate|].
      exfalso.
      destruct (blocksFind_same_block _ _ _ _ _ _ _ E (Nat.le_0_l _)) as [Hb _].
      clear -E Hb Hge. revert E Hb Hge. 
      assert (G : forall bl start prev, blocksFind bl start pos prev = (bpos, t) :: l ->
                    bpos + blockLength t <= start + characterCount bl).
      { induction bl as [|t0 r IH]; intros start prev E; simpl in E; [discriminate|].
        cbn [characterCount]. destruct (pos <? start + blockLength t0).
        - inversion E; subst. lia.
        - apply IH in E. lia. }
      intros E Hb Hge. apply G in E. simpl in E. lia.
Qed.

Lemma scanDown_some re blocks : forall p c,
  scanDown re blocks p = Some c ->
  anchor c <= p /\ anchor c <= position c /\
  matchAt re blocks (anchor c) = Some c /\
  forall q, anchor c < q <= p -> matchAt re blocks q = None.
Proof.
  induction p as [|p IH]; intros c H; simpl in H.
  - destruct (matchAt re blocks 0) eqn:E; [|discriminate].
    inversion H; subst.
    assert (anchor c = 0 /\ anchor c <= position c).
    { unfold matchAt in E. destruct (blocksFind blocks 0 0 []) as [|[b t] l]; [discriminate|].
      destruct matchedLength; inversion E; simpl; lia. }
    destruct H0 as [A B]. rewrite A.
    split; [lia|]. split; [lia|]. split; [assumption|]. intros q Hq; lia.
  - destruct (matchAt re blocks (S p)) eqn:E.
    + inversion H; subst.
      assert (anchor c = S p /\ anchor c <= position c).
      { unfold matchAt in E. destruct (blocksFind blocks 0 (S p) []) as [|[b t] l]; [discriminate|].
        destruct matchedLength; inversion E; simpl; lia. }
      destruct H0 as [A B]. rewrite A.
      split; [lia|]. split; [lia|]. split; [assumption|]. intros q Hq; lia.
    + destruct (IH _ H) as (A & B & C & D).
      split; [lia|]. split; [lia|]. split; [assumption|]. intros q Hq. destruct (Nat.eq_dec q (S p)); [subst; assumption|].
      apply D. lia.
Qed.

Lemma matchesBelow_scanDown re blocks : forall p,
  matchesBelow re blocks (S p) =
  match scanDown re blocks p with
  | Some c => c :: matchesBelow re blocks (anchor c)
  | None => []
  end.
Proof.
  induction p as [|p IH].
  - simpl. destruct (matchAt re blocks 0) eqn:E; [|reflexivity].
    unfold matchAt in E. destruct (blocksFind blocks 0 0 []) as [|[b t] l]; [discriminate|].
    destruct matchedLength; inversion E; reflexivity.
  - change (matchesBelow re blocks (S (S p))) with
      (match matchAt re blocks (S p) with
       | Some c => c :: matchesBelow re blocks (S p)
       | None => matchesBelow re blocks (S p)
       end).
    change (scanDown re blocks (S p)) with
      (match matchAt re blocks (S p) with
       | Some c => Some c
       | None => scanDown re blocks p
       end).
    destruct (matchAt re blocks (S p)) eqn:E.
    + unfold matchAt in E. destruct (blocksFind blocks 0 (S p) []) as [|[b t] l]; [discriminate|].
      destruct matchedLength; inversion E; reflexivity.
    + exact IH.
Qed.

(** ** The loop of a batch *)

Lemma last_cons_default {A : Type} (x : A) (l : list A) (d1 d2 : A) :
  last (x :: l) d1 = last (x :: l) d2.
Proof.
  revert x. induction l as [|y l IH]; intros x; [reflexivity|].
  change (last (y :: l) d1 = last (y :: l) d2). apply IH.
Qed.

Section DecoratorFacts.

Variable m_re : QRegExp.
Variable decorateCursor : QTextCursor -> QTextDocument -> QTextDocument.

Lemma find_decreases doc tc c :
  find m_re doc tc = Some c ->
  selectionStart c < selectionStart tc /\ anchor c <= position c.
Proof.
  unfold find. intros H.
  destruct (findFrom_found _ _ _ _ H) as (pos & Hs & _ & _ & Hscan).
  destruct (scanDown_some _ _ _ _ Hscan) as (A & B & _).
  unfold selectionStart at 1. rewrite Hs. lia.
Qed.

(** What one batch does, whatever the clock: it visits a first part of
    the pass and either ends the pass or leaves its last match in
    [m_tc] with the timer started. *)
Lemma decorateLoop_spec : forall fuel elapsed k timer doc tc,
  selectionStart tc <= fuel ->
  exists doc' dec' visited,
    decorateLoop m_re decorateCursor fuel elapsed k timer doc tc
    = Some (doc', dec', visited) /\
    doc' = decorateAll decorateCursor visited doc /\
    decreasingFrom (selectionStart tc) visited /\
    ((dec' = {| m_tc := None; m_timerDecorate := timer |} /\
      visits m_re decorateCursor doc tc visited doc') \/
     (exists c, dec' = {| m_tc := Some c; m_timerDecorate := true |} /\
        visited <> [] /\ last visited tc = c /\
        forall rest doc'',
          visits m_re decorateCursor doc' c rest doc'' ->
          visits m_re decorateCursor doc tc (visited ++ rest) doc'')).
Proof.
  induction fuel as [|fuel IH]; intros elapsed k timer doc tc Hf.
  - simpl. destruct (find m_re doc tc) as [c|] eqn:E.
    + apply find_decreases in E. lia.
    + exists doc, {| m_tc := None; m_timerDecorate := timer |}, [].
      split; [reflexivity|]. split; [reflexivity|]. split; [exact I|].
      left. split; [reflexivity|]. constructor. exact E.
  - simpl. destruct (find m_re doc tc) as [c|] eqn:E.
    + pose proof (find_decreases _ _ _ E) as [Hd _].
      destruct (elapsed k <? 20)%Z.
      * destruct (IH elapsed (S k) timer (decorateCursor c doc) c ltac:(lia))
          as (doc' & dec' & visited & Hr & Hall & Hdec & Hcase).
        rewrite Hr. exists doc', dec', (c :: visited).
        split; [reflexivity|]. split; [exact Hall|]. split; [simpl; auto|].
        destruct Hcase as [[Hdec' Hv]|(c' & Hdec' & Hne & Hl & Hv)].
        -- left. split; [exact Hdec'|]. econstructor; eassumption.
        -- right. exists c'. split; [exact Hdec'|]. split; [discriminate|].
           split.
           ++ destruct visited as [|q visited]; [congruence|].
              rewrite <- Hl. change (last (q :: visited) tc = last (q :: visited) c).
              apply last_cons_default.
           ++ intros rest doc'' Hrest. simpl. econstructor; [exact E|].
              apply Hv. exact Hrest.
      * exists (decorateCursor c doc), {| m_tc := Some c; m_timerDecorate := true |}, [c].
        split; [reflexivity|]. split; [reflexivity|]. split; [simpl; auto|].
        right. exists c. split; [reflexivity|]. split; [discriminate|].
        split; [reflexivity|].
        intros rest doc'' Hrest. simpl. econstructor; eassumption.
    + exists doc, {| m_tc := None; m_timerDecorate := timer |}, [].
      split; [reflexivity|]. split; [reflexivity|]. split; [exact I|].
      left. split; [reflexivity|]. constructor. exact E.
Qed.


Lemma decreasingFrom_last : forall visited bound tc,
  visited <> [] -> decreasingFrom bound visited ->
  selectionStart (last visited tc) < bound.
Proof.
  induction visited as [|c rest IH]; intros bound tc Hne H; [congruence|].
  destruct H as [H1 H2]. destruct rest as [|c' rest']; [exact H1|].
  change (selectionStart (last (c' :: rest') tc) < bound).
  specialize (IH (selectionStart c) tc ltac:(discriminate) H2). lia.
Qed.

Lemma decreasingFrom_app : forall v1 v2 bound tc,
  v1 <> [] -> decreasingFrom bound v1 ->
  decreasingFrom (selectionStart (last v1 tc)) v2 ->
  decreasingFrom bound (v1 ++ v2).
Proof.
  induction v1 as [|c rest IH]; intros v2 bound tc Hne H1 H2; [congruence|].
  destruct H1 as [Hc Hrest]. simpl. split; [exact Hc|].
  destruct rest as [|c' rest']; [exact H2|].
  apply (IH v2 (selectionStart c) tc); [discriminate|exact Hrest|exact H2].
Qed.

Lemma decreasingFrom_NoDup : forall visited bound,
  decreasingFrom bound visited ->
  NoDup (map selectionStart visited) /\
  Forall (fun c => selectionStart c < bound) visited.
Proof.
  induction visited as [|c rest IH]; intros bound H.
  - split; constructor.
  - destruct H as [Hc Hrest]. destruct (IH _ Hrest) as [Hnd Hall].
    split.
    + simpl. constructor; [|exact Hnd].
      intros Hin. apply in_map_iff in Hin. destruct Hin as (c' & Heq & Hin).
      rewrite Forall_forall in Hall. specialize (Hall _ Hin). lia.
    + constructor; [exact Hc|].
      eapply Forall_impl; [|exact Hall]. simpl. intros; lia.
Qed.

Lemma decorateAll_app v1 v2 doc :
  decorateAll decorateCursor (v1 ++ v2) doc
  = decorateAll decorateCursor v2 (decorateAll decorateCursor v1 doc).
Proof. unfold decorateAll. apply fold_left_app. Qed.

Lemma runTimer_stopped n clock j doc dec :
  m_timerDecorate dec = false ->
  runTimer m_re decorateCursor n clock j doc dec = Some (doc, dec, []).
Proof. intros H. destruct n; simpl; rewrite H; reflexivity. Qed.

(** The timer's continuations end the pass: with a null cursor the
    one pending timeout, if any, does nothing. *)
Lemma runTimer_null n clock j doc timer :
  1 <= n ->
  runTimer m_re decorateCursor n clock j doc
    {| m_tc := None; m_timerDecorate := timer |}
  = Some (doc, idleDecorator, []).
Proof.
  intros Hn. destruct n as [|n]; [lia|]. destruct timer.
  - simpl. destruct n; reflexivity.
  - reflexivity.
Qed.

Lemma runTimer_spec : forall n clock j doc c,
  selectionStart c < n ->
  exists doc' visited,
    runTimer m_re decorateCursor n clock j doc
      {| m_tc := Some c; m_timerDecorate := true |}
    = Some (doc', idleDecorator, visited) /\
    doc' = decorateAll decorateCursor visited doc /\
    decreasingFrom (selectionStart c) visited /\
    visits m_re decorateCursor doc c visited doc'.
Proof.
  induction n as [|n IH]; intros clock j doc c Hn; [lia|].
  cbn [runTimer m_timerDecorate]. unfold timeout, decorateBatch.
  cbn [m_tc m_timerDecorate].
  destruct (decorateLoop_spec (selectionStart c) (clock j) 0 false doc c (le_n _))
    as (doc1 & dec1 & v1 & Hr & Hall & Hdec & Hcase).
  rewrite Hr.
  destruct Hcase as [[Hd Hv]|(c' & Hd & Hne & Hl & Hv)]; subst dec1.
  - rewrite runTimer_stopped by reflexivity.
    exists doc1, v1. rewrite app_nil_r. auto.
  - pose proof (decreasingFrom_last v1 _ c Hne Hdec) as Hlt. rewrite Hl in Hlt.
    destruct (IH clock (S j) doc1 c' ltac:(lia)) as (doc2 & v2 & Hr2 & Hall2 & Hdec2 & Hv2).
    rewrite Hr2. exists doc2, (v1 ++ v2).
    split; [reflexivity|]. split.
    + rewrite decorateAll_app, <- Hall. exact Hall2.
    + split.
      * apply (decreasingFrom_app v1 v2 _ c Hne Hdec). rewrite Hl. exact Hdec2.
      * apply Hv. exact Hv2.
Qed.

Lemma cursorAtEnd_start doc :
  selectionStart (cursorAtEnd doc) = characterCount doc - 1.
Proof. unfold selectionStart, cursorAtEnd. simpl. apply Nat.min_id. Qed.

Lemma pass_spec clock doc dec :
  exists doc' visited,
    pass m_re decorateCursor clock doc dec = Some (doc', idleDecorator, visited) /\
    doc' = decorateAll decorateCursor visited doc /\
    decreasingFrom (selectionStart (cursorAtEnd doc)) visited /\
    visits m_re decorateCursor doc (cursorAtEnd doc) visited doc'.
Proof.
  unfold pass, decorate, decorateBatch. cbn [m_tc m_timerDecorate].
  destruct (decorateLoop_spec (selectionStart (cursorAtEnd doc)) (clock 0) 0
              (m_timerDecorate dec) doc (cursorAtEnd doc) (le_n _))
    as (doc1 & dec1 & v1 & Hr & Hall & Hdec & Hcase).
  rewrite Hr.
  destruct Hcase as [[Hd Hv]|(c' & Hd & Hne & Hl & Hv)]; subst dec1.
  - rewrite runTimer_null by lia. exists doc1, v1. rewrite app_nil_r. auto.
  - pose proof (decreasingFrom_last v1 _ (cursorAtEnd doc) Hne Hdec) as Hlt.
    rewrite Hl in Hlt. rewrite cursorAtEnd_start in Hlt.
    destruct (runTimer_spec (S (characterCount doc)) clock 1 doc1 c' ltac:(lia))
      as (doc2 & v2 & Hr2 & Hall2 & Hdec2 & Hv2).
    rewrite Hr2. exists doc2, (v1 ++ v2).
    split; [reflexivity|]. split.
    + rewrite decorateAll_app, <- Hall. exact Hall2.
    + split.
      * apply (decreasingFrom_app v1 v2 _ (cursorAtEnd doc) Hne Hdec).
        rewrite Hl. exact Hdec2.
      * apply Hv. exact Hv2.
Qed.

End DecoratorFacts.

(** ** Passes *)

Section PassFacts.

Variable m_re : QRegExp.
Variable decorateCursor : QTextCursor -> QTextDocument -> QTextDocument.

Lemma visits_deterministic doc tc v1 d1 :
  visits m_re decorateCursor doc tc v1 d1 ->
  forall v2 d2, visits m_re decorateCursor doc tc v2 d2 -> v1 = v2 /\ d1 = d2.
Proof.
  induction 1 as [doc tc E|doc tc c visited doc' E Hv IH]; intros v2 d2 H2.
  - inversion H2; subst; [auto|congruence].
  - inversion H2 as [|? ? c0 visited0 ? E0 Hv0]; subst; [congruence|].
    assert (c0 = c) by congruence. subst c0.
    destruct (IH _ _ Hv0) as [-> ->]. auto.
Qed.

Lemma last_cons {A : Type} (x : A) (l : list A) (d : A) :
  last (x :: l) d = last l x.
Proof.
  destruct l as [|y l]; [reflexivity|].
  change (last (y :: l) d = last (y :: l) x). apply last_cons_default.
Qed.

Lemma visits_ends doc tc visited doc' :
  visits m_re decorateCursor doc tc visited doc' ->
  find m_re doc' (last visited tc) = None.
Proof.
  induction 1 as [doc tc E|doc tc c visited doc' E Hv IH]; [exact E|].
  rewrite last_cons. exact IH.
Qed.

Lemma decorateLoop_timer : forall fuel elapsed k t t' doc tc d dec v,
  decorateLoop m_re decorateCursor fuel elapsed k t doc tc = Some (d, dec, v) ->
  exists dec',
    decorateLoop m_re decorateCursor fuel elapsed k t' doc tc = Some (d, dec', v) /\
    m_tc dec' = m_tc dec.
Proof.
  induction fuel as [|fuel IH]; intros elapsed k t t' doc tc d dec v H;
    simpl in *; destruct (find m_re doc tc) as [c|].
  - destruct (elapsed k <? 20)%Z; [discriminate|]. eauto.
  - inversion H; subst. eauto.
  - destruct (elapsed k <? 20)%Z; [|eauto].
    destruct (decorateLoop m_re decorateCursor fuel elapsed (S k) t
                (decorateCursor c doc) c) as [[[d0 dec0] v0]|] eqn:E;
      [|discriminate].
    inversion H; subst.
    destruct (IH _ _ _ t' _ _ _ _ _ E) as (dec' & -> & Hd). eauto.
  - inversion H; subst. eauto.
Qed.

End PassFacts.

(** C5. A pass, for any document, hook and clock readings, returns after
    at most [characterCount doc + 1] continuations with the decorator
    idle; the matches it visits start at strictly decreasing positions
    (so none is visited twice); each is the match found from the one
    before, and the pass ends exactly when [find] gives no match before
    the cursor. *)
Theorem pass_terminates_decreasing
  (m_re : QRegExp)
  (decorateCursor : QTextCursor -> QTextDocument -> QTextDocument)
  (clock : nat -> nat -> Z) (doc : QTextDocument) (dec : Decorator) :
  exists doc' visited,
    pass m_re decorateCursor clock doc dec = Some (doc', idleDecorator, visited) /\
    visits m_re decorateCursor doc (cursorAtEnd doc) visited doc' /\
    find m_re doc' (last visited (cursorAtEnd doc)) = None /\
    decreasingFrom (selectionStart (cursorAtEnd doc)) visited /\
    NoDup (map selectionStart visited).
Proof.
  destruct (pass_spec m_re decorateCursor clock doc dec)
    as (doc' & visited & Hp & _ & Hdec & Hv).
  exists doc', visited. split; [exact Hp|]. split; [exact Hv|].
  split; [exact (visits_ends _ _ _ _ _ _ Hv)|]. split; [exact Hdec|].
  exact (proj1 (decreasingFrom_NoDup _ _ Hdec)).
Qed.

Lemma characterCount_texts : forall doc,
  characterCount (blockTexts doc) = characterCount doc.
Proof.
  induction doc as [|b doc IH]; [reflexivity|].
  simpl. unfold blockLength, blockText. rewrite length_map, IH. reflexivity.
Qed.

Lemma scanDown_none re blocks : forall p,
  scanDown re blocks p = None ->
  forall q, q <= p -> matchAt re blocks q = None.
Proof.
  induction p as [|p IH]; intros H q Hq; simpl in H;
    destruct (matchAt re blocks _) eqn:E; try discriminate.
  - replace q with 0 by lia. exact E.
  - destruct (Nat.eq_dec q (S p)) as [->|Hne]; [exact E|].
    apply IH; [exact H|lia].
Qed.

(** C7. [decorate(document)] puts the cursor at the end of the document,
    the position after its last character, and runs one batch at once:
    the search of that batch starts there, so the first match it hands
    to the hook, before [decorate] returns, is the last match of the
    whole document, and when it finds none the document has no match.
    What the decorator's cursor was before plays no role, and neither
    does a continuation still pending: the pass started by [decorate]
    has the same outcome from every earlier state of the decorator. *)
Theorem decorate_restarts_pass
  (m_re : QRegExp)
  (decorateCursor : QTextCursor -> QTextDocument -> QTextDocument)
  (elapsed : nat -> Z) (clock : nat -> nat -> Z)
  (doc : QTextDocument) (dec : Decorator) :
  decorate m_re decorateCursor elapsed doc dec
  = decorateBatch m_re decorateCursor elapsed doc
      {| m_tc := Some (cursorAtEnd doc); m_timerDecorate := m_timerDecorate dec |} /\
  (exists doc1 dec1 v1,
      decorate m_re decorateCursor elapsed doc dec = Some (doc1, dec1, v1) /\
      doc1 = decorateAll decorateCursor v1 doc /\
      match find m_re doc (cursorAtEnd doc) with
      | Some c => exists rest, v1 = c :: rest
      | None => v1 = [] /\ m_tc dec1 = None
      end /\
      forall dec0, exists dec1',
        decorate m_re decorateCursor elapsed doc dec0 = Some (doc1, dec1', v1) /\
        m_tc dec1' = m_tc dec1) /\
  (forall dec0 clock0,
      pass m_re decorateCursor clock0 doc dec0
      = pass m_re decorateCursor clock doc dec) /\
  anchor (cursorAtEnd doc) = characterCount doc - 1 /\
  position (cursorAtEnd doc) = characterCount doc - 1 /\
  (isEmpty m_re = false ->
   match find m_re doc (cursorAtEnd doc) with
   | Some c =>
       matchAt m_re (blockTexts doc) (anchor c) = Some c /\
       forall p, anchor c < p -> p < characterCount doc - 1 ->
                 matchAt m_re (blockTexts doc) p = None
   | None =>
       forall p, p < characterCount doc - 1 ->
                 matchAt m_re (blockTexts doc) p = None
   end).
Proof.
  split; [reflexivity|]. split; [|split].
  - unfold decorate, decorateBatch. cbn [m_tc m_timerDecorate].
    destruct (decorateLoop_spec m_re decorateCursor (selectionStart (cursorAtEnd doc))
                elapsed 0 (m_timerDecorate dec) doc (cursorAtEnd doc) (le_n _))
      as (doc1 & dec1 & v1 & Hr & Hall & Hdec & Hcase).
    exists doc1, dec1, v1. split; [exact Hr|]. split; [exact Hall|]. split.
    + destruct (selectionStart (cursorAtEnd doc)) as [|fuel]; simpl in Hr;
        destruct (find m_re doc (cursorAtEnd doc)) as [c|].
      * destruct (elapsed 0%nat <? 20)%Z; [discriminate|]. inversion Hr. eauto.
      * inversion Hr. auto.
      * destruct (elapsed 0%nat <? 20)%Z; [|inversion Hr; eauto].
        destruct (decorateLoop m_re decorateCursor fuel elapsed 1
                    (m_timerDecorate dec) (decorateCursor c doc) c)
          as [[[d0 dec0] v0]|]; [|discriminate].
        inversion Hr. eauto.
      * inversion Hr. auto.
    + intros dec0.
      exact (decorateLoop_timer m_re decorateCursor _ _ _ _ (m_timerDecorate dec0)
               _ _ _ _ _ Hr).
  - intros dec0 clock0.
    destruct (pass_spec m_re decorateCursor clock0 doc dec0)
      as (d0 & v0 & Hp0 & _ & _ & Hv0).
    destruct (pass_spec m_re decorateCursor clock doc dec)
      as (d1 & v1 & Hp1 & _ & _ & Hv1).
    destruct (visits_deterministic _ _ _ _ _ _ Hv0 _ _ Hv1) as [-> ->].
    rewrite Hp0, Hp1. reflexivity.
  - split; [reflexivity|]. split; [reflexivity|].
    intros Hre. unfold find. rewrite cursorAtEnd_start.
    destruct (characterCount doc - 1) as [|pos] eqn:Hc;
      [unfold findFrom; rewrite Hre; intros p Hp; lia|].
    rewrite findFrom_scanDown;
      [|exact Hre|rewrite characterCount_texts; lia].
    destruct (scanDown m_re (blockTexts doc) pos) as [c|] eqn:E.
    + destruct (scanDown_some _ _ _ _ E) as (_ & _ & Hm & Hlast).
      split; [exact Hm|]. intros p Hp1 Hp2. apply Hlast. lia.
    + intros p Hp. apply (scanDown_none _ _ _ E). lia.
Qed.

(** ** Continuations and the document of the cursor *)








(** C9. A batch entered with a cursor that is not null searches backward
    once before anything else; the match found, if any, is handed to the
    hook before the clock is read, so the cursor left by the batch is
    strictly before the one it started from, even when the first reading
    of the clock is already past the budget.  With no match the batch
    ends the pass. *)
Theorem decorateBatch_progress
  (m_re : QRegExp)
  (decorateCursor : QTextCursor -> QTextDocument -> QTextDocument)
  (elapsed : nat -> Z) (doc : QTextDocument) (tc : QTextCursor) (timer : bool) :
  match find m_re doc tc with
  | Some c =>
      exists doc' dec' rest,
        decorateBatch m_re decorateCursor elapsed doc
          {| m_tc := Some tc; m_timerDecorate := timer |}
        = Some (doc', dec', c :: rest) /\
        doc' = decorateAll decorateCursor rest (decorateCursor c doc) /\
        (m_tc dec' = None \/
         exists c', m_tc dec' = Some c' /\ selectionStart c' < selectionStart tc) /\
        ((20 <= elapsed 0%nat)%Z ->
         doc' = decorateCursor c doc /\ rest = [] /\
         dec' = {| m_tc := Some c; m_timerDecorate := true |})
  | None =>
      decorateBatch m_re decorateCursor elapsed doc
        {| m_tc := Some tc; m_timerDecorate := timer |}
      = Some (doc, {| m_tc := None; m_timerDecorate := timer |}, [])
  end.
Proof.
  unfold decorateBatch. cbn [m_tc m_timerDecorate].
  destruct (find m_re doc tc) as [c|] eqn:E.
  - pose proof (find_decreases _ _ _ _ E) as [Hlt _].
    destruct (selectionStart tc) as [|fuel] eqn:Hs; [lia|].
    simpl. rewrite E.
    destruct (Z.ltb_spec (elapsed 0%nat) 20) as [Hz|Hz].
    + destruct (decorateLoop_spec m_re decorateCursor fuel elapsed 1 timer
                  (decorateCursor c doc) c ltac:(lia))
        as (doc' & dec' & rest & Hr & Hall & Hdec & Hcase).
      rewrite Hr. exists doc', dec', rest.
      split; [reflexivity|]. split; [exact Hall|]. split; [|lia].
      destruct Hcase as [[-> _]|(c' & -> & Hne & Hl & _)]; [left; reflexivity|].
      right. exists c'. split; [reflexivity|].
      pose proof (decreasingFrom_last rest _ c Hne Hdec) as Hlast.
      rewrite Hl in Hlast. lia.
    + exists (decorateCursor c doc), {| m_tc := Some c; m_timerDecorate := true |}, [].
      split; [reflexivity|]. split; [reflexivity|]. split; [|auto].
      right. exists c. split; [reflexivity|lia].
  - destruct (selectionStart tc); simpl; rewrite E; reflexivity.
Qed.

(** ** Formats and text *)

Lemma mapBlockFormats_text f : forall b pos,
  blockText (mapBlockFormats f pos b) = blockText b.
Proof.
  induction b as [|[c x] b IH]; intros pos; [reflexivity|].
  simpl. f_equal. apply IH.
Qed.

Lemma mapBlockFormats_length f : forall b pos,
  length (mapBlockFormats f pos b) = length b.
Proof.
  induction b as [|[c x] b IH]; intros pos; [reflexivity|].
  simpl. f_equal. apply IH.
Qed.

Lemma mapFormats_texts f : forall doc pos,
  blockTexts (mapFormats f pos doc) = blockTexts doc.
Proof.
  induction doc as [|b doc IH]; intros pos; [reflexivity|].
  simpl. rewrite mapBlockFormats_text. f_equal. apply IH.
Qed.

Lemma mapBlockFormats_id : forall b pos,
  mapBlockFormats (fun _ x => x) pos b = b.
Proof.
  induction b as [|[c x] b IH]; intros pos; [reflexivity|].
  simpl. f_equal. apply IH.
Qed.

Lemma mapFormats_id : forall doc pos, mapFormats (fun _ x => x) pos doc = doc.
Proof.
  induction doc as [|b doc IH]; intros pos; [reflexivity|].
  simpl. rewrite mapBlockFormats_id. f_equal. apply IH.
Qed.

Lemma mapBlockFormats_ext f g :
  (forall p x, f p x = g p x) ->
  forall b pos, mapBlockFormats f pos b = mapBlockFormats g pos b.
Proof.
  intros H. induction b as [|[c x] b IH]; intros pos; [reflexivity|].
  simpl. rewrite H. f_equal. apply IH.
Qed.

Lemma mapFormats_ext f g :
  (forall p x, f p x = g p x) ->
  forall doc pos, mapFormats f pos doc = mapFormats g pos doc.
Proof.
  intros H. induction doc as [|b doc IH]; intros pos; [reflexivity|].
  simpl. rewrite (mapBlockFormats_ext f g H). f_equal. apply IH.
Qed.

Lemma mapBlockFormats_compose f g : forall b pos,
  mapBlockFormats f pos (mapBlockFormats g pos b)
  = mapBlockFormats (fun p x => f p (g p x)) pos b.
Proof.
  induction b as [|[c x] b IH]; intros pos; [reflexivity|].
  simpl. f_equal. apply IH.
Qed.

Lemma mapFormats_compose f g : forall doc pos,
  mapFormats f pos (mapFormats g pos doc)
  = mapFormats (fun p x => f p (g p x)) pos doc.
Proof.
  induction doc as [|b doc IH]; intros pos; [reflexivity|].
  simpl. rewrite mapBlockFormats_compose. f_equal.
  unfold blockLength. rewrite mapBlockFormats_length. apply IH.
Qed.

Lemma documentChars_texts : forall doc,
  map fst (documentChars doc) = plainChars (blockTexts doc).
Proof.
  induction doc as [|b doc IH]; [reflexivity|].
  simpl. rewrite map_app. simpl. rewrite IH, <- app_assoc. reflexivity.
Qed.

Lemma selectedText_texts tc doc :
  selectedText tc doc = selectedTextIn (blockTexts doc) tc.
Proof.
  unfold selectedText, selectedTextIn.
  rewrite <- documentChars_texts, skipn_map, firstn_map. reflexivity.
Qed.

Lemma cursorAtEnd_texts d1 d2 :
  blockTexts d1 = blockTexts d2 -> cursorAtEnd d1 = cursorAtEnd d2.
Proof.
  intros H. unfold cursorAtEnd.
  rewrite <- (characterCount_texts d1), <- (characterCount_texts d2), H.
  reflexivity.
Qed.

(** ** Passes of a styling hook *)

Section StylingHook.

Variable m_re : QRegExp.
Variable classify : QString -> option QTextCharFormat.
Variable hook : QTextCursor -> QTextDocument -> QTextDocument.
Hypothesis hook_styles : stylingHook classify hook.

Lemma hook_mapFormats tc doc :
  hook tc doc
  = mapFormats (styleAt (classify (selectedTextIn (blockTexts doc) tc)) tc) 0 doc.
Proof.
  rewrite hook_styles, selectedText_texts.
  destruct (classify (selectedTextIn (blockTexts doc) tc)); [reflexivity|].
  simpl. symmetry. apply mapFormats_id.
Qed.

Lemma hook_texts tc doc : blockTexts (hook tc doc) = blockTexts doc.
Proof. rewrite hook_mapFormats. apply mapFormats_texts. Qed.

Lemma visits_styleAll doc tc visited doc' :
  visits m_re hook doc tc visited doc' ->
  forall d2, blockTexts d2 = blockTexts doc ->
    visits m_re hook d2 tc visited
      (mapFormats (styleAll classify (blockTexts doc) visited) 0 d2).
Proof.
  induction 1 as [doc tc E|doc tc c visited doc' E Hv IH]; intros d2 Ht.
  - simpl. rewrite mapFormats_id. constructor.
    unfold find in *. rewrite Ht. exact E.
  - econstructor.
    + unfold find in *. rewrite Ht. exact E.
    + specialize (IH (hook c d2)).
      rewrite !hook_texts in IH. specialize (IH Ht).
      rewrite (hook_mapFormats c d2) in IH at 2.
      rewrite mapFormats_compose in IH. rewrite Ht in IH. exact IH.
Qed.

Lemma styleAll_const_or_id blocks : forall visited p,
  (forall x, styleAll classify blocks visited p x = x) \/
  (exists f, forall x, styleAll classify blocks visited p x = f).
Proof.
  induction visited as [|c rest IH]; intros p; [left; reflexivity|].
  simpl. destruct (IH p) as [Hid|[f Hf]].
  - unfold styleAt.
    destruct (classify (selectedTextIn blocks c)) as [g|].
    + destruct (inSelection c p).
      * right. exists g. intros x. apply Hid.
      * left. intros x. apply Hid.
    + left. intros x. apply Hid.
  - right. exists f. intros x. apply Hf.
Qed.

Lemma styleAll_idempotent blocks visited p x :
  styleAll classify blocks visited p (styleAll classify blocks visited p x)
  = styleAll classify blocks visited p x.
Proof.
  destruct (styleAll_const_or_id blocks visited p) as [Hid|[f Hf]].
  - rewrite !Hid. reflexivity.
  - rewrite !Hf. reflexivity.
Qed.

(** The outcome of a pass of a styling hook: the text is unchanged and
    the formats are those of [styleAll] over the matches visited. *)
Lemma pass_styleAll clock doc dec :
  exists visited,
    pass m_re hook clock doc dec
    = Some (mapFormats (styleAll classify (blockTexts doc) visited) 0 doc,
            idleDecorator, visited) /\
    visits m_re hook doc (cursorAtEnd doc) visited
      (mapFormats (styleAll classify (blockTexts doc) visited) 0 doc).
Proof.
  destruct (pass_spec m_re hook clock doc dec) as (doc' & visited & Hp & _ & _ & Hv).
  exists visited.
  pose proof (visits_styleAll _ _ _ _ Hv doc eq_refl) as Hv'.
  destruct (visits_deterministic _ _ _ _ _ _ Hv _ _ Hv') as [_ ->].
  split; assumption.
Qed.

End StylingHook.

(** C6. For a hook that only styles, a second pass over the document
    left by a first pass visits the same matches and leaves the document
    as it is: same text, same format at every position, whatever the
    clocks of the two passes and the state of the decorator. *)
Theorem pass_idempotent
  (m_re : QRegExp) (classify : QString -> option QTextCharFormat)
  (hook : QTextCursor -> QTextDocument -> QTextDocument)
  (clock1 clock2 : nat -> nat -> Z) (doc : QTextDocument)
  (dec1 dec2 : Decorator) :
  stylingHook classify hook ->
  exists doc1 visited,
    pass m_re hook clock1 doc dec1 = Some (doc1, idleDecorator, visited) /\
    pass m_re hook clock2 doc1 dec2 = Some (doc1, idleDecorator, visited).
Proof.
  intros Hs.
  destruct (pass_styleAll m_re classify hook Hs clock1 doc dec1) as (v1 & Hp1 & Hv1).
  set (F := styleAll classify (blockTexts doc) v1) in *.
  exists (mapFormats F 0 doc), v1. split; [exact Hp1|].
  destruct (pass_styleAll m_re classify hook Hs clock2 (mapFormats F 0 doc) dec2)
    as (v2 & Hp2 & Hv2).
  assert (Ht : blockTexts (mapFormats F 0 doc) = blockTexts doc)
    by apply mapFormats_texts.
  pose proof (visits_styleAll m_re classify hook Hs _ _ _ _ Hv1 _ Ht) as Hv1'.
  rewrite <- (cursorAtEnd_texts _ _ Ht) in Hv1'.
  destruct (visits_deterministic _ _ _ _ _ _ Hv2 _ _ Hv1') as [-> Hd].
  rewrite Hp2. rewrite Hd. fold F.
  rewrite mapFormats_compose.
  rewrite (mapFormats_ext _ F); [reflexivity|].
  intros p x. apply styleAll_idempotent.
Qed.

Lemma pass_idempotent_witness :
  stylingHook (fun _ => Some StringDecorator.m_stringFormat)
    StringDecorator.decorate /\
  exists doc1 visited,
    pass StringDecorator.m_re StringDecorator.decorate (fun _ _ => 25%Z)
      (setPlainText quotesText) idleDecorator
    = Some (doc1, idleDecorator, visited) /\
    pass StringDecorator.m_re StringDecorator.decorate (fun _ _ => 0%Z)
      doc1 idleDecorator
    = Some (doc1, idleDecorator, visited).
Proof.
  split; [intros tc doc; reflexivity|].
  apply (pass_idempotent StringDecorator.m_re
           (fun _ => Some StringDecorator.m_stringFormat)
           StringDecorator.decorate).
  intros tc doc. reflexivity.
Defined.

(** ** Matching: general facts *)

Lemma longest_spec l m :
  longest l = Some m <-> In m l /\ forall x, In x l -> x <= m.
Proof.
  destruct l as [|n l]; simpl.
  - split; [discriminate|intros [[] _]].
  - assert (G : forall l a, (In (fold_left Nat.max l a) (a :: l)) /\
                            forall x, In x (a :: l) -> x <= fold_left Nat.max l a).
    { clear. induction l as [|b l IH]; intros a; simpl.
      - split; [auto|]. intros x [->|[]]. lia.
      - destruct (IH (Nat.max a b)) as [Hin Hle]. split.
        + destruct Hin as [Hin|Hin]; [|auto].
          destruct (Nat.max_spec a b) as [[_ E]|[_ E]]; [right; left|left];
            rewrite <- Hin; symmetry; exact E.
        + intros x Hx. 
          assert (Nat.max a b <= fold_left Nat.max l (Nat.max a b))
            by (apply Hle; left; reflexivity).
          destruct Hx as [->|[->|Hx]]; [lia|lia|].
          apply Hle. right. exact Hx. }
    destruct (G l n) as [Hin Hle]. split.
    + intros H. inversion H; subst. split; assumption.
    + intros [Hm Hmax]. f_equal.
      apply Nat.le_antisymm; [apply Hmax; exact Hin|apply Hle; exact Hm].
Qed.

Lemma longest_none l : longest l = None <-> l = [].
Proof. destruct l; simpl; split; intros; congruence. Qed.

Lemma rxLens_seq cs a b off s len :
  In len (rxLens cs (RxSeq a b) off s) <->
  exists n m, In n (rxLens cs a off s) /\
              In m (rxLens cs b (off + n) (skipn n s)) /\ len = n + m.
Proof.
  simpl. rewrite in_flat_map. split.
  - intros (n & Hn & Hm). apply in_map_iff in Hm. destruct Hm as (m & <- & Hm).
    eauto.
  - intros (n & m & Hn & Hm & ->). exists n. split; [exact Hn|].
    apply in_map_iff. eauto.
Qed.

Lemma rxLens_char cs m off s len :
  In len (rxLens cs (RxChar m) off s) <->
  len = 1 /\ exists c s', s = c :: s' /\ charMatches cs m c = true.
Proof.
  simpl. destruct s as [|c s'].
  - split; [intros []|intros (_ & c & s' & H & _); discriminate].
  - destruct (charMatches cs m c) eqn:E; simpl.
    + split; [intros [<-|[]]; eauto|intros [-> _]; auto].
    + split; [intros []|]. intros (_ & c' & s'' & H & H'). inversion H; subst.
      congruence.
Qed.

(** [a*] for an [a] that matches one character, those that satisfy [P]. *)
Lemma rxStar_class (P : QChar -> bool) step :
  (forall off s, step off s = match s with
                               | c :: _ => if P c then [1] else []
                               | [] => []
                               end) ->
  forall fuel off s, length s <= fuel ->
    rxStar step fuel off s = seq 0 (S (spanLen P s)).
Proof.
  intros Hstep. induction fuel as [|fuel IH]; intros off s Hlen.
  - destruct s; [reflexivity|simpl in Hlen; lia].
  - simpl rxStar. rewrite Hstep. destruct s as [|c s']; [reflexivity|].
    simpl spanLen. destruct (P c); [|reflexivity].
    simpl. rewrite app_nil_r. rewrite IH by (simpl in Hlen; lia).
    f_equal. rewrite <- seq_shift. reflexivity.
Qed.

Lemma rxLens_star_any cs off s len :
  In len (rxLens cs (RxStar RxAny) off s) <-> len <= length s.
Proof.
  simpl. rewrite (rxStar_class (fun _ => true)).
  - rewrite in_seq.
    assert (spanLen (fun _ => true) s = length s)
      by (induction s; simpl; congruence).
    lia.
  - intros o t. destruct t; reflexivity.
  - apply le_n.
Qed.

Lemma spanLen_spec P : forall s n,
  n <= spanLen P s <-> n <= length s /\ forallb P (firstn n s) = true.
Proof.
  induction s as [|c s IH]; intros n; simpl.
  - split; [intros H; replace n with 0 by lia; auto|intros [H _]; exact H].
  - destruct n as [|n]; simpl.
    + split; [split; [lia|reflexivity]|lia].
    + destruct (P c); simpl.
      * rewrite <- !Nat.succ_le_mono. apply IH.
      * split; [lia|intros [_ H]; discriminate].
Qed.

Lemma rxLens_star_noneOf cs l off s len :
  In len (rxLens cs (RxStar (RxNoneOf l)) off s) <->
  len <= length s /\ forallb (classMatches cs l) (firstn len s) = true.
Proof.
  simpl. rewrite (rxStar_class (classMatches cs l)).
  - rewrite in_seq, <- spanLen_spec. lia.
  - intros o t. destruct t; reflexivity.
  - apply le_n.
Qed.

(** Matching without regard to case: a character that is not a letter
    matches itself only. *)
Lemma charMatches_colon c :
  charMatches CaseInsensitive ":"%char c = Ascii.eqb ":"%char c.
Proof. destruct c as [[] [] [] [] [] [] [] []]; reflexivity. Qed.

Lemma charMatches_space c :
  charMatches CaseInsensitive space c = Ascii.eqb space c.
Proof. destruct c as [[] [] [] [] [] [] [] []]; reflexivity. Qed.

Lemma charMatches_dquote c :
  charMatches CaseInsensitive dquote c = Ascii.eqb dquote c.
Proof. destruct c as [[] [] [] [] [] [] [] []]; reflexivity. Qed.

Lemma charMatches_squote c :
  charMatches CaseInsensitive squote c = Ascii.eqb squote c.
Proof. destruct c as [[] [] [] [] [] [] [] []]; reflexivity. Qed.

Lemma classMatches_dquote c :
  classMatches CaseInsensitive [dquote] c = negb (Ascii.eqb dquote c).
Proof. destruct c as [[] [] [] [] [] [] [] []]; reflexivity. Qed.

Lemma classMatches_squote c :
  classMatches CaseInsensitive [squote] c = negb (Ascii.eqb squote c).
Proof. destruct c as [[] [] [] [] [] [] [] []]; reflexivity. Qed.

(** ** The two patterns *)

Lemma skipn_cons_nth {A : Type} : forall (s : list A) n c s',
  skipn n s = c :: s' -> nth_error s n = Some c /\ skipn (S n) s = s'.
Proof.
  induction s as [|x s IH]; intros n c s' H.
  - destruct n; discriminate.
  - destruct n as [|n]; simpl in *.
    + inversion H; subst. auto.
    + apply IH in H. exact H.
Qed.

Lemma nth_skipn_cons {A : Type} : forall (s : list A) n c,
  nth_error s n = Some c -> skipn n s = c :: skipn (S n) s.
Proof.
  induction s as [|x s IH]; intros n c H.
  - destruct n; discriminate.
  - destruct n as [|n]; simpl in *.
    + inversion H; subst. reflexivity.
    + apply IH in H. exact H.
Qed.

Lemma logPattern_lens off s len :
  In len (rxLens CaseInsensitive LogDecorator.m_re off s) <->
  off = 0 /\ exists n, len = n + 2 /\ nth_error s n = Some ":"%char /\
                       nth_error s (S n) = Some space.
Proof.
  unfold LogDecorator.m_re. rewrite rxLens_seq. split.
  - intros (n0 & m0 & H0 & Hm & ->). simpl in H0.
    destruct (Nat.eqb_spec off 0) as [->|]; [|destruct H0].
    destruct H0 as [<-|[]]. split; [reflexivity|].
    simpl skipn in Hm. apply rxLens_seq in Hm.
    destruct Hm as (n & m & Hn & Hm & ->).
    apply rxLens_seq in Hm. destruct Hm as (a & b & Ha & Hb & ->).
    apply rxLens_char in Ha. destruct Ha as (-> & c & s' & Hs & Hc).
    apply rxLens_char in Hb. destruct Hb as (-> & c2 & s2 & Hs2 & Hc2).
    rewrite charMatches_colon in Hc. apply Ascii.eqb_eq in Hc. subst c.
    rewrite charMatches_space in Hc2. apply Ascii.eqb_eq in Hc2. subst c2.
    rewrite Hs in Hs2. simpl in Hs2.
    apply skipn_cons_nth in Hs. destruct Hs as [Hn1 Hrest].
    exists n. split; [lia|]. split; [exact Hn1|].
    rewrite Hs2 in Hrest. apply skipn_cons_nth in Hrest. apply Hrest.
  - intros (-> & n & -> & Hc & Hsp).
    exists 0, (n + 2). split; [left; reflexivity|]. split; [|reflexivity].
    simpl skipn. apply rxLens_seq. exists n, 2. split.
    + apply rxLens_star_any. apply Nat.lt_le_incl. apply nth_error_Some. congruence.
    + split; [|reflexivity]. apply rxLens_seq. exists 1, 1.
      rewrite (nth_skipn_cons _ _ _ Hc). split.
      * apply rxLens_char. split; [reflexivity|]. eexists _, _. split; [reflexivity|].
        rewrite charMatches_colon. apply Ascii.eqb_refl.
      * split; [|reflexivity].
        change (skipn 1 (":"%char :: skipn (S n) s)) with (skipn (S n) s).
        rewrite (nth_skipn_cons _ _ _ Hsp).
        apply rxLens_char. split; [reflexivity|]. eexists _, _. split; [reflexivity|].
        rewrite charMatches_space. apply Ascii.eqb_refl.
Qed.

Lemma nth_error_searchText t n :
  nth_error (searchText t) n
  = option_map (fun c => if Ascii.eqb c Nbsp then space else c) (nth_error t n).
Proof. unfold searchText. apply nth_error_map. Qed.

Lemma searchText_colon t n :
  nth_error (searchText t) n = Some ":"%char <-> nth_error t n = Some ":"%char.
Proof.
  rewrite nth_error_searchText. destruct (nth_error t n) as [c|]; simpl; [|tauto].
  destruct (Ascii.eqb_spec c Nbsp) as [->|]; [|tauto].
  split; intros H; inversion H.
Qed.

Lemma searchText_space t n :
  nth_error (searchText t) n = Some space <->
  nth_error t n = Some space \/ nth_error t n = Some Nbsp.
Proof.
  rewrite nth_error_searchText. destruct (nth_error t n) as [c|]; simpl.
  - destruct (Ascii.eqb_spec c Nbsp) as [->|Hn].
    + split; auto.
    + split; [auto|]. intros [H|H]; [exact H|]. inversion H. contradiction.
  - split; [discriminate|intros [H|H]; discriminate].
Qed.

(** The match of the header pattern in a block: at index 0 only, up to
    the last colon that a space follows. *)
Lemma logPattern_matchedLength t i len :
  matchedLength CaseInsensitive LogDecorator.m_re (searchText t) i = Some len ->
  i = 0 /\ exists n, len = n + 2 /\ colonSpaceAt t n /\
                     forall j, n < j -> ~ colonSpaceAt t j.
Proof.
  unfold matchedLength. destruct (i <=? length (searchText t)); [|discriminate].
  unfold matchHere. intros H. apply longest_spec in H. destruct H as [Hin Hmax].
  apply logPattern_lens in Hin. destruct Hin as (-> & n & -> & Hc & Hs).
  split; [reflexivity|]. simpl skipn in *. exists n. split; [reflexivity|].
  split.
  - split; [apply searchText_colon; exact Hc|apply searchText_space; exact Hs].
  - intros j Hj [Hcj Hsj].
    assert (Hin : In (j + 2) (rxLens CaseInsensitive LogDecorator.m_re 0 (searchText t))).
    { apply logPattern_lens. split; [reflexivity|]. exists j.
      split; [reflexivity|].
      split; [apply searchText_colon; exact Hcj|apply searchText_space; exact Hsj]. }
    apply Hmax in Hin. lia.
Qed.

Lemma quotedPattern_lens q off s len :
  (forall c, charMatches CaseInsensitive q c = Ascii.eqb q c) ->
  (forall c, classMatches CaseInsensitive [q] c = negb (Ascii.eqb q c)) ->
  In len (rxLens CaseInsensitive
            (RxSeq (RxChar q) (RxSeq (RxStar (RxNoneOf [q])) (RxChar q))) off s) <->
  exists body rest, s = q :: body ++ q :: rest /\ ~ In q body /\
                    len = length body + 2.
Proof.
  intros Hch Hcl. rewrite rxLens_seq. split.
  - intros (a & m & Ha & Hm & ->).
    apply rxLens_char in Ha. destruct Ha as (-> & c & s' & -> & Hc).
    rewrite Hch in Hc. apply Ascii.eqb_eq in Hc. subst c.
    simpl skipn in Hm. apply rxLens_seq in Hm.
    destruct Hm as (n & b & Hn & Hb & ->).
    apply rxLens_star_noneOf in Hn. destruct Hn as [Hlen Hall].
    apply rxLens_char in Hb. destruct Hb as (-> & c & s2 & Hs2 & Hc).
    rewrite Hch in Hc. apply Ascii.eqb_eq in Hc. subst c.
    exists (firstn n s'), s2. split; [|split].
    + rewrite <- Hs2, firstn_skipn. reflexivity.
    + intros Hin. rewrite forallb_forall in Hall. specialize (Hall _ Hin).
      rewrite Hcl, Ascii.eqb_refl in Hall. discriminate.
    + rewrite length_firstn, Nat.min_l by exact Hlen. lia.
  - intros (body & rest & -> & Hnot & ->).
    exists 1, (length body + 1). split; [|split; [|lia]].
    + apply rxLens_char. split; [reflexivity|]. eexists _, _. split; [reflexivity|].
      rewrite Hch. apply Ascii.eqb_refl.
    + simpl skipn. apply rxLens_seq. exists (length body), 1.
      split; [|split; [|reflexivity]].
      * apply rxLens_star_noneOf. split; [rewrite length_app; lia|].
        rewrite firstn_app, Nat.sub_diag, firstn_all. simpl. rewrite app_nil_r.
        apply forallb_forall. intros c Hc. rewrite Hcl.
        destruct (Ascii.eqb_spec q c) as [->|]; [contradiction|reflexivity].
      * rewrite skipn_app, Nat.sub_diag, skipn_all. cbn [app skipn].
        apply rxLens_char. split; [reflexivity|]. eexists _, _. split; [reflexivity|].
        rewrite Hch. apply Ascii.eqb_refl.
Qed.

Lemma stringPattern_lens off s len :
  In len (rxLens CaseInsensitive StringDecorator.m_re off s) <->
  exists q body rest, (q = dquote \/ q = squote) /\ s = q :: body ++ q :: rest /\
                      ~ In q body /\ len = length body + 2.
Proof.
  unfold StringDecorator.m_re.
  change (rxLens CaseInsensitive (RxAlt ?a ?b) off s)
    with (rxLens CaseInsensitive a off s ++ rxLens CaseInsensitive b off s).
  rewrite in_app_iff.
  rewrite (quotedPattern_lens dquote off s len charMatches_dquote classMatches_dquote).
  rewrite (quotedPattern_lens squote off s len charMatches_squote classMatches_squote).
  split.
  - intros [(body & rest & H)|(body & rest & H)]; eauto 6.
  - intros (q & body & rest & Hq & H). destruct Hq; subst q; eauto.
Qed.

Lemma quoted_body_unique (q : QChar) : forall body1 rest1 body2 rest2,
  body1 ++ q :: rest1 = body2 ++ q :: rest2 ->
  ~ In q body1 -> ~ In q body2 -> body1 = body2.
Proof.
  induction body1 as [|x b1 IH]; intros rest1 body2 rest2 H H1 H2.
  - destruct body2 as [|y b2]; [reflexivity|].
    simpl in H. inversion H; subst. exfalso. apply H2. left. reflexivity.
  - destruct body2 as [|y b2]; simpl in H; inversion H; subst.
    + exfalso. apply H1. left. reflexivity.
    + f_equal. apply (IH rest1 b2 rest2); [assumption| |].
      * intros Hin. apply H1. right. exact Hin.
      * intros Hin. apply H2. right. exact Hin.
Qed.

Lemma stringPattern_matchHere off s len :
  matchHere CaseInsensitive StringDecorator.m_re off s = Some len <->
  exists q body rest, (q = dquote \/ q = squote) /\ s = q :: body ++ q :: rest /\
                      ~ In q body /\ len = length body + 2.
Proof.
  unfold matchHere. rewrite longest_spec, <- (stringPattern_lens off). split; [tauto|].
  intros H. split; [exact H|]. intros x Hx.
  apply stringPattern_lens in H. apply stringPattern_lens in Hx.
  destruct H as (q & body & rest & _ & Hs & Hn & ->).
  destruct Hx as (q' & body' & rest' & _ & Hs' & Hn' & ->).
  rewrite Hs in Hs'. inversion Hs'; subst q'.
  rewrite (quoted_body_unique q body rest body' rest'); auto.
Qed.

(** ** Matches and blocks *)

Lemma blockPositions_ge : forall blocks start bpos t,
  In (bpos, t) (blockPositions start blocks) -> start <= bpos.
Proof.
  induction blocks as [|t0 rest IH]; intros start bpos t H; [destruct H|].
  destruct H as [H|H].
  - inversion H; subst. apply le_n.
  - apply IH in H. unfold blockLength in H. lia.
Qed.

Lemma blocksFind_In : forall blocks start pos prev bpos t l,
  blocksFind blocks start pos prev = (bpos, t) :: l ->
  In (bpos, t) (blockPositions start blocks).
Proof.
  induction blocks as [|t0 rest IH]; intros start pos prev bpos t l H;
    simpl in H; [discriminate|].
  destruct (pos <? start + blockLength t0).
  - inversion H; subst. left. reflexivity.
  - right. eapply IH. exact H.
Qed.

Lemma blocksFind_of_In : forall blocks start pos prev bpos t,
  In (bpos, t) (blockPositions start blocks) ->
  bpos <= pos < bpos + blockLength t ->
  exists l, blocksFind blocks start pos prev = (bpos, t) :: l.
Proof.
  induction blocks as [|t0 rest IH]; intros start pos prev bpos t H Hp;
    [destruct H|].
  simpl. destruct H as [H|H].
  - inversion H; subst.
    destruct (Nat.ltb_spec pos (bpos + blockLength t)); [eauto|lia].
  - pose proof (blockPositions_ge _ _ _ _ H) as Hge.
    destruct (Nat.ltb_spec pos (start + blockLength t0)); [lia|].
    apply IH; assumption.
Qed.

Lemma matchAt_block re blocks p c :
  matchAt re blocks p = Some c <->
  exists bpos t len,
    In (bpos, t) (blockPositions 0 blocks) /\ bpos <= p <= bpos + length t /\
    matchedLength CaseInsensitive re (searchText t) (p - bpos) = Some len /\
    c = {| anchor := p; position := p + len |}.
Proof.
  unfold matchAt. split.
  - destruct (blocksFind blocks 0 p []) as [|[bpos t] l] eqn:E; [discriminate|].
    destruct (matchedLength CaseInsensitive re (searchText t) (p - bpos)) as [len|] eqn:M;
      [|discriminate].
    intros H. inversion H; subst. exists bpos, t, len.
    split; [apply (blocksFind_In _ _ _ _ _ _ _ E)|].
    destruct (blocksFind_same_block _ _ _ _ _ _ _ E (Nat.le_0_l _)) as [Hb _].
    unfold blockLength in Hb. split; [lia|]. auto.
  - intros (bpos & t & len & Hin & Hp & M & ->).
    destruct (blocksFind_of_In blocks 0 p [] bpos t Hin) as [l ->];
      [unfold blockLength; lia|].
    rewrite M. reflexivity.
Qed.

Lemma matchesBelow_In re blocks : forall n c,
  In c (matchesBelow re blocks n) <->
  anchor c < n /\ matchAt re blocks (anchor c) = Some c.
Proof.
  assert (A : forall p c, matchAt re blocks p = Some c -> anchor c = p).
  { intros p c H. apply matchAt_block in H.
    destruct H as (? & ? & ? & _ & _ & _ & ->). reflexivity. }
  induction n as [|n IH]; intros c; simpl.
  - split; [intros []|lia].
  - destruct (matchAt re blocks n) as [c'|] eqn:E.
    + simpl. rewrite IH. split.
      * intros [<-|[Hlt Hm]]; [|split; [lia|exact Hm]].
        rewrite (A _ _ E). split; [lia|exact E].
      * intros [Hlt Hm]. destruct (Nat.eq_dec (anchor c) n) as [Heq|Hne].
        -- left. rewrite Heq in Hm. congruence.
        -- right. split; [lia|exact Hm].
    + rewrite IH. split; intros [Hlt Hm]; (split; [|exact Hm]); [lia|].
      destruct (Nat.eq_dec (anchor c) n) as [Heq|Hne]; [|lia].
      rewrite Heq in Hm. congruence.
Qed.

(** A pass of a styling hook visits the matches below the end of the
    document, the last one first. *)
Section StylingPass.

Variable m_re : QRegExp.
Variable classify : QString -> option QTextCharFormat.
Variable hook : QTextCursor -> QTextDocument -> QTextDocument.
Hypothesis hook_styles : stylingHook classify hook.
Hypothesis m_re_not_empty : isEmpty m_re = false.

Lemma find_matchesBelow doc tc :
  selectionStart tc <= characterCount doc ->
  matchesBelow m_re (blockTexts doc) (selectionStart tc)
  = match find m_re doc tc with
    | Some c => c :: matchesBelow m_re (blockTexts doc) (selectionStart c)
    | None => []
    end.
Proof.
  intros Hv. unfold find. destruct (selectionStart tc) as [|pos] eqn:Hs.
  - unfold findFrom. rewrite m_re_not_empty. reflexivity.
  - rewrite findFrom_scanDown;
      [|exact m_re_not_empty|rewrite characterCount_texts; lia].
    rewrite matchesBelow_scanDown.
    destruct (scanDown m_re (blockTexts doc) pos) as [c|] eqn:E; [|reflexivity].
    destruct (scanDown_some _ _ _ _ E) as (_ & Hle & _).
    unfold selectionStart. rewrite Nat.min_l by exact Hle. reflexivity.
Qed.

Lemma visits_matchesBelow doc tc visited doc' :
  visits m_re hook doc tc visited doc' ->
  selectionStart tc <= characterCount doc ->
  visited = matchesBelow m_re (blockTexts doc) (selectionStart tc).
Proof.
  induction 1 as [doc tc E|doc tc c visited doc' E Hv IH]; intros Hvalid.
  - rewrite find_matchesBelow, E by exact Hvalid. reflexivity.
  - rewrite find_matchesBelow, E by exact Hvalid. f_equal.
    rewrite <- (hook_texts classify hook hook_styles c doc). apply IH.
    rewrite <- characterCount_texts,
      (hook_texts classify hook hook_styles), characterCount_texts.
    pose proof (find_decreases _ _ _ _ E). lia.
Qed.

Lemma pass_matchesBelow clock doc dec :
  let visited :=
    matchesBelow m_re (blockTexts doc) (characterCount doc - 1) in
  pass m_re hook clock doc dec
  = Some (mapFormats (styleAll classify (blockTexts doc) visited) 0 doc,
          idleDecorator, visited).
Proof.
  destruct (pass_styleAll m_re classify hook hook_styles clock doc dec)
    as (visited & Hp & Hv).
  apply visits_matchesBelow in Hv; [|rewrite cursorAtEnd_start; lia].
  rewrite cursorAtEnd_start in Hv. subst visited. exact Hp.
Qed.

End StylingPass.

(** ** The header pattern *)

(** C2, amended.  A match of the header pattern starts where a line
    starts and ends right after a colon that a space follows; that colon
    is the last such one of the line, not the first. *)
Theorem header_match_to_last_colon_space
  (doc : QTextDocument) (tc c : QTextCursor) :
  find LogDecorator.m_re doc tc = Some c ->
  exists bpos t n,
    In (bpos, t) (blockPositions 0 (blockTexts doc)) /\
    anchor c = bpos /\ position c = bpos + n + 2 /\
    colonSpaceAt t n /\ forall j, n < j -> ~ colonSpaceAt t j.
Proof.
  intros H. unfold find in H.
  destruct (findFrom_found _ _ _ _ H) as (pos & _ & _ & _ & Hscan).
  destruct (scanDown_some _ _ _ _ Hscan) as (_ & _ & Hm & _).
  apply matchAt_block in Hm.
  destruct Hm as (bpos & t & len & Hin & Hp & Hlen & Hc).
  apply logPattern_matchedLength in Hlen.
  destruct Hlen as (H0 & n & -> & Hcs & Hlast).
  exists bpos, t, n. split; [exact Hin|].
  rewrite Hc at 2. simpl.
  assert (anchor c = bpos) by lia.
  split; [assumption|]. split; [lia|]. split; assumption.
Qed.

(** C2, as worded, fails on the line [Error: a: b]: the match runs to
    the second colon and space, past the first. *)
Lemma header_first_colon_space_counterexample :
  find LogDecorator.m_re headerDoc (cursorAtEnd headerDoc)
  = Some {| anchor := 0; position := 10 |} /\
  selectedText {| anchor := 0; position := 10 |} headerDoc = qs "Error: a: " /\
  ~ headerToFirstColonSpace headerDoc {| anchor := 0; position := 10 |}.
Proof.
  split; [reflexivity|]. split; [reflexivity|].
  intros (bpos & t & n & Hin & Ha & Hp & _ & Hfirst).
  simpl in Hin. destruct Hin as [Hin|[]]. inversion Hin; subst bpos t.
  simpl in Hp. assert (n = 8) by lia. subst n.
  apply (Hfirst 5); [lia|]. split; [reflexivity|left; reflexivity].
Qed.

Lemma header_match_to_last_colon_space_witness :
  find LogDecorator.m_re headerDoc (cursorAtEnd headerDoc)
  = Some {| anchor := 0; position := 10 |} /\
  exists bpos t n,
    In (bpos, t) (blockPositions 0 (blockTexts headerDoc)) /\
    anchor {| anchor := 0; position := 10 |} = bpos /\
    position {| anchor := 0; position := 10 |} = bpos + n + 2 /\
    colonSpaceAt t n /\ forall j, n < j -> ~ colonSpaceAt t j.
Proof.
  split; [reflexivity|].
  apply (header_match_to_last_colon_space headerDoc (cursorAtEnd headerDoc)).
  reflexivity.
Defined.

(** ** The string pattern *)

Lemma searchChar_quote q x :
  q = dquote \/ q = squote ->
  (if Ascii.eqb x Nbsp then space else x) = q <-> x = q.
Proof.
  intros Hq. destruct (Ascii.eqb_spec x Nbsp) as [->|Hn]; [|tauto].
  destruct Hq as [-> | ->]; split; intros H; inversion H.
Qed.

Lemma searchText_quoted q t i n :
  q = dquote \/ q = squote ->
  (i <= length t /\
   exists body rest, skipn i (searchText t) = q :: body ++ q :: rest /\
                     ~ In q body /\ n = length body + 2) <->
  quotedAt q t i n.
Proof.
  intros Hq. unfold quotedAt, searchText. split.
  - intros (Hi & body' & rest' & Hs & Hnot & ->).
    rewrite skipn_map in Hs.
    destruct (skipn i t) as [|x u] eqn:Hu; unfold QChar in Hu; rewrite Hu in Hs;
      [simpl in Hs; discriminate|].
    simpl in Hs. injection Hs as Hx Hrest.
    apply (searchChar_quote q x Hq) in Hx. subst x.
    apply map_eq_app in Hrest. destruct Hrest as (b & r & -> & Hb & Hr).
    destruct r as [|y r']; [discriminate|]. simpl in Hr. injection Hr as Hy Hr'.
    apply (searchChar_quote q y Hq) in Hy. subst y.
    exists (firstn i t), b, r'. split; [|split; [|split]].
    + transitivity (firstn i t ++ skipn i t);
        [symmetry; apply firstn_skipn|f_equal; exact Hu].
    + rewrite length_firstn. lia.
    + rewrite <- Hb, length_map. reflexivity.
    + intros Hin. apply Hnot. rewrite <- Hb. apply in_map_iff.
      exists q. split; [|exact Hin]. apply (searchChar_quote q q Hq). reflexivity.
  - intros (pre & body & rest & -> & <- & -> & Hnot).
    split; [rewrite length_app; lia|].
    exists (searchText body), (searchText rest). unfold searchText.
    split; [|split].
    + rewrite skipn_map, skipn_app, Nat.sub_diag, skipn_all. cbn [app skipn].
      rewrite map_cons, map_app, map_cons.
      rewrite !(proj2 (searchChar_quote q q Hq) eq_refl). reflexivity.
    + intros Hin. apply in_map_iff in Hin. destruct Hin as (x & Hx & Hin).
      apply (searchChar_quote q x Hq) in Hx. subst x. contradiction.
    + rewrite length_map. reflexivity.
Qed.

Lemma stringPattern_matchedLength t i n :
  matchedLength CaseInsensitive StringDecorator.m_re (searchText t) i = Some n <->
  exists q, (q = dquote \/ q = squote) /\ quotedAt q t i n.
Proof.
  unfold matchedLength. rewrite searchText_length. split.
  - destruct (Nat.leb_spec i (length t)) as [Hi|Hi]; [|discriminate].
    intros H. apply stringPattern_matchHere in H.
    destruct H as (q & body & rest & Hq & H).
    exists q. split; [exact Hq|]. apply (searchText_quoted q t i n Hq). eauto.
  - intros (q & Hq & H). apply (searchText_quoted q t i n Hq) in H.
    destruct H as (Hi & body & rest & H).
    destruct (Nat.leb_spec i (length t)) as [_|]; [|lia].
    apply stringPattern_matchHere. eauto.
Qed.

Lemma blockPositions_end : forall blocks start bpos t,
  In (bpos, t) (blockPositions start blocks) ->
  bpos + blockLength t <= start + characterCount blocks.
Proof.
  induction blocks as [|t0 rest IH]; intros start bpos t H; [destruct H|].
  cbn [characterCount]. destruct H as [H|H].
  - inversion H; subst. lia.
  - apply IH in H. lia.
Qed.

Lemma quotedAt_length q t i n :
  quotedAt q t i n -> 2 <= n /\ i + n <= length t.
Proof.
  intros (pre & body & rest & -> & <- & -> & _).
  rewrite !length_app. simpl. rewrite length_app. simpl. lia.
Qed.

Lemma stringMatches_quotedSpan doc a b :
  In {| anchor := a; position := b |}
     (matchesBelow StringDecorator.m_re (blockTexts doc) (characterCount doc - 1))
  <-> quotedSpan doc a b.
Proof.
  rewrite matchesBelow_In. cbn [anchor]. rewrite matchAt_block. split.
  - intros (_ & bpos & t & len & Hin & Hp & Hm & Hc).
    apply stringPattern_matchedLength in Hm. destruct Hm as (q & Hq & Hquoted).
    inversion Hc; subst b.
    exists bpos, t, (a - bpos), len, q.
    split; [exact Hin|]. split; [exact Hq|]. split; [exact Hquoted|]. lia.
  - intros (bpos & t & i & n & q & Hin & Hq & Hquoted & -> & ->).
    pose proof (quotedAt_length _ _ _ _ Hquoted) as [Hn Hlen].
    pose proof (blockPositions_end _ _ _ _ Hin) as Hend.
    rewrite characterCount_texts in Hend. unfold blockLength in Hend.
    split; [lia|]. exists bpos, t, n.
    split; [exact Hin|]. split; [lia|]. split; [|reflexivity].
    replace (bpos + i - bpos) with i by lia.
    apply stringPattern_matchedLength. eauto.
Qed.

Lemma StringDecorator_styles :
  stylingHook (fun _ => Some StringDecorator.m_stringFormat)
    StringDecorator.decorate.
Proof. intros tc doc. reflexivity. Qed.

Lemma styleAll_fixed f blocks : forall visited p old,
  styleAll (fun _ => Some f) blocks visited p old
  = if existsb (fun c => inSelection c p) visited then f else old.
Proof.
  induction visited as [|c rest IH]; intros p old; [reflexivity|].
  simpl. rewrite IH. destruct (inSelection c p); simpl;
    destruct (existsb (fun c0 => inSelection c0 p) rest); reflexivity.
Qed.

Lemma pass_StringDecorator clock doc dec :
  let visited :=
    matchesBelow StringDecorator.m_re (blockTexts doc) (characterCount doc - 1) in
  pass StringDecorator.m_re StringDecorator.decorate clock doc dec
  = Some (mapFormats
            (fun p old =>
               if existsb (fun c => inSelection c p) visited
               then StringDecorator.m_stringFormat else old) 0 doc,
          idleDecorator, visited).
Proof.
  intros visited.
  rewrite (pass_matchesBelow StringDecorator.m_re _ _ StringDecorator_styles eq_refl).
  fold visited. f_equal. f_equal. f_equal.
  apply mapFormats_ext. intros p x. apply styleAll_fixed.
Qed.

(** C4, as worded, fails on a double-quoted string that runs over a line
    break: the span is enclosed in a pair of double quotes with no
    double quote inside, yet the pass finds no match and styles
    nothing.  And a double quote without a partner is styled when
    another double quote precedes it on the line: after the literal
    ["hi"], the span from its closing quote to the third quote is a
    match. *)
Lemma multiline_quote_counterexample :
  toPlainText (setPlainText twoLineQuoteText) = twoLineQuoteText /\
  quotedInText (setPlainText twoLineQuoteText) 0 5 /\
  pass StringDecorator.m_re StringDecorator.decorate (fun _ _ => 0%Z)
    (setPlainText twoLineQuoteText) idleDecorator
  = Some (setPlainText twoLineQuoteText, idleDecorator, []) /\
  exists doc',
    pass StringDecorator.m_re StringDecorator.decorate (fun _ _ => 0%Z)
      (setPlainText strayQuoteText) idleDecorator
    = Some (doc', idleDecorator,
            [{| anchor := 3; position := 8 |};
             {| anchor := 0; position := 4 |}]) /\
    selectedText {| anchor := 7; position := 8 |} doc' = [dquote] /\
    spanFormats doc' 7 8 = [StringDecorator.m_stringFormat].
Proof.
  split; [reflexivity|]. split; [|split; [reflexivity|]].
  - exists dquote. split; [left; reflexivity|].
    exists [], (qs "a" ++ newline :: qs "b"), [].
    split; [reflexivity|]. split; [reflexivity|]. split; [reflexivity|].
    simpl. intros [H|[H|[H|[]]]]; discriminate.
  - eexists. split; [vm_compute; reflexivity|]. split; reflexivity.
Qed.

(** C4, amended.  A pass of the string decorator visits exactly the
    spans that lie in one line and consist of a quote character, double
    or single, characters other than it, and the same quote character;
    it sets the one string format on every position of these spans and
    leaves every other format as it was.  In [he said "hi" and 'bye']
    the two quoted strings, quotes included, get the string format and
    nothing else does; a text whose only quote is a lone double quote is
    left without any style. *)
Theorem string_pass_styles_quoted_spans :
  (forall clock doc dec,
      exists visited,
        pass StringDecorator.m_re StringDecorator.decorate clock doc dec
        = Some (mapFormats
                  (fun p old =>
                     if existsb (fun c => inSelection c p) visited
                     then StringDecorator.m_stringFormat else old) 0 doc,
                idleDecorator, visited) /\
        forall a b,
          In {| anchor := a; position := b |} visited <-> quotedSpan doc a b) /\
  (forall clock dec,
      exists doc',
        pass StringDecorator.m_re StringDecorator.decorate clock
          (setPlainText quotesText) dec
        = Some (doc', idleDecorator,
                [{| anchor := 17; position := 22 |};
                 {| anchor := 8; position := 12 |}]) /\
        toPlainText doc' = quotesText /\
        selectedText {| anchor := 8; position := 12 |} doc'
        = dquote :: qs "hi" ++ [dquote] /\
        spanFormats doc' 8 12 = repeat StringDecorator.m_stringFormat 4 /\
        selectedText {| anchor := 17; position := 22 |} doc' = qs "'bye'" /\
        spanFormats doc' 17 22 = repeat StringDecorator.m_stringFormat 5 /\
        spanFormats doc' 0 8 = repeat QTextCharFormat_new 8 /\
        spanFormats doc' 12 17 = repeat QTextCharFormat_new 5) /\
  (forall clock dec,
      pass StringDecorator.m_re StringDecorator.decorate clock
        (setPlainText loneQuoteText) dec
      = Some (setPlainText loneQuoteText, idleDecorator, [])).
Proof.
  split; [|split].
  - intros clock doc dec. eexists. split; [apply pass_StringDecorator|].
    intros a b. apply stringMatches_quotedSpan.
  - intros clock dec. eexists. split; [apply pass_StringDecorator|].
    vm_compute. repeat split.
  - intros clock dec. rewrite pass_StringDecorator. reflexivity.
Qed.

(** ** The label classifier *)

Lemma LogDecorator_styles font :
  stylingHook (classifyLabel font) (LogDecorator.decorate font).
Proof.
  intros tc doc. unfold LogDecorator.decorate, classifyLabel, knownLabels.
  cbn [List.find logLevelLabel].
  unfold LogDecorator.m_labelNote, LogDecorator.m_labelError,
    LogDecorator.m_labelWarning, LogDecorator.m_labelDebug,
    LogDecorator.m_labelTrace. cbn [logLevelLabel].
  destruct (startsWith (selectedText tc doc) (qs "Note")); [reflexivity|].
  destruct (startsWith (selectedText tc doc) (qs "Error")); [reflexivity|].
  destruct (startsWith (selectedText tc doc) (qs "Warning")); [reflexivity|].
  destruct (startsWith (selectedText tc doc) (qs "Debug")); [reflexivity|].
  destruct (startsWith (selectedText tc doc) (qs "Trace")); reflexivity.
Qed.

(** C3. The hook of the label decorator gives the selected text the
    format of the first of Note, Error, Warning, Debug, Trace that the
    text starts with, and leaves the document as it is when the text
    starts with none of them.  In [Error: failed] the span [Error: ]
    gets the error format; in [Unknown: hi] the header is matched and
    keeps its format. *)
Theorem level_classifier_first_label :
  (forall font, stylingHook (classifyLabel font) (LogDecorator.decorate font)) /\
  (forall font clock dec,
      exists doc',
        pass LogDecorator.m_re (LogDecorator.decorate font) clock errorDoc dec
        = Some (doc', idleDecorator, [{| anchor := 0; position := 7 |}]) /\
        toPlainText doc' = qs "Error: failed" ++ [newline] /\
        selectedText {| anchor := 0; position := 7 |} doc' = qs "Error: " /\
        spanFormats doc' 0 7 = repeat (LogDecorator.m_errorLogLevelFormat font) 7 /\
        spanFormats doc' 7 13 = repeat QTextCharFormat_new 6) /\
  (forall font clock dec,
      pass LogDecorator.m_re (LogDecorator.decorate font) clock unknownDoc dec
      = Some (unknownDoc, idleDecorator, [{| anchor := 0; position := 9 |}]) /\
      selectedText {| anchor := 0; position := 9 |} unknownDoc = qs "Unknown: ").
Proof.
  split; [exact LogDecorator_styles|]. split.
  - intros font clock dec. eexists.
    split; [apply (pass_matchesBelow LogDecorator.m_re _ _ (LogDecorator_styles font) eq_refl)|].
    vm_compute. repeat split.
  - intros font clock dec.
    rewrite (pass_matchesBelow LogDecorator.m_re _ _ (LogDecorator_styles font) eq_refl).
    split; reflexivity.
Qed.

(** ** The scenario of [updateLog] *)












(** ** The text pipeline of [updateLog], line by line *)

Lemma joinLines_lineBreak rest : lineBreak (joinLines [] rest).
Proof.
  destruct rest as [|l rest]; [left; reflexivity|right].
  eexists. reflexivity.
Qed.

Lemma startsWith_line : forall p l tail,
  ~ In newline p -> lineBreak tail ->
  startsWith (l ++ tail) p = startsWith l p.
Proof.
  induction p as [|x p IH]; intros l tail Hp Ht; [destruct l; reflexivity|].
  destruct l as [|c l].
  - cbn [app]. destruct Ht as [->|[t ->]]; [reflexivity|].
    cbn [startsWith]. destruct (Ascii.eqb_spec newline x) as [<-|]; [|reflexivity].
    exfalso. apply Hp. left. reflexivity.
  - cbn [app startsWith]. rewrite IH; [reflexivity| |exact Ht].
    intros Hin. apply Hp. right. exact Hin.
Qed.

Lemma startsWith_split : forall p l,
  startsWith l p = true -> l = p ++ skipn (length p) l.
Proof.
  induction p as [|x p IH]; intros l H; [reflexivity|].
  destruct l as [|c l]; [discriminate|].
  cbn [startsWith] in H. apply andb_prop in H. destruct H as [Hc Hl].
  apply Ascii.eqb_eq in Hc. subst c. cbn [length skipn app]. f_equal.
  apply IH. exact Hl.
Qed.

Section Replace.

Variable before' after : QString.
Let before := newline :: before'.

Lemma replaceFrom_line : forall l tail,
  ~ In newline l ->
  replaceFrom before after 0 (l ++ tail)
  = l ++ replaceFrom before after 0 tail.
Proof.
  induction l as [|c l IH]; intros tail Hl; [reflexivity|].
  simpl app.
  assert (Hc : Ascii.eqb c newline = false).
  { destruct (Ascii.eqb_spec c newline) as [->|]; [|reflexivity].
    exfalso. apply Hl. left. reflexivity. }
  change (replaceFrom before after 0 (c :: l ++ tail))
    with (if startsWith (c :: l ++ tail) before
          then after ++ replaceFrom before after (length before') (l ++ tail)
          else c :: replaceFrom before after 0 (l ++ tail)).
  unfold before at 1. cbn [startsWith]. rewrite Hc. cbn [andb].
  f_equal. apply IH. intros Hin. apply Hl. right. exact Hin.
Qed.

Lemma replaceFrom_skip : forall x y,
  replaceFrom before after (length x) (x ++ y) = replaceFrom before after 0 y.
Proof.
  induction x as [|c x IH]; intros y; [reflexivity|].
  simpl. apply IH.
Qed.

End Replace.

Lemma skipn_no_newline n (l : QString) :
  ~ In newline l -> ~ In newline (skipn n l).
Proof.
  intros H Hin. apply H. rewrite <- (firstn_skipn n l).
  apply in_or_app. right. exact Hin.
Qed.

Lemma stripNoise_no_newline l : ~ In newline l -> ~ In newline (stripNoise l).
Proof.
  unfold stripNoise. destruct (startsWith l (qs "CopyQ ")); [|auto].
  apply skipn_no_newline.
Qed.

(** The first statement of [updateLog]: every line but the first loses a
    leading [CopyQ ]. *)
Lemma replace_lines first rest :
  ~ In newline first -> Forall (fun l => ~ In newline l) rest ->
  replace (newline :: qs "CopyQ ") [newline] (joinLines first rest)
  = joinLines first (map stripNoise rest).
Proof.
  intros Hf Hr. unfold replace, joinLines.
  rewrite replaceFrom_line by exact Hf. f_equal.
  induction Hr as [|l rest Hl Hrest IH]; [reflexivity|].
  cbn [flat_map map]. 
  pose proof (joinLines_lineBreak rest) as Hb. unfold joinLines in Hb.
  simpl app in Hb.
  set (tail := flat_map (fun l0 => newline :: l0) rest) in *.
  change (replaceFrom (newline :: qs "CopyQ ") [newline] 0 ((newline :: l) ++ tail))
    with (if startsWith (l ++ tail) (qs "CopyQ ")
          then [newline] ++ replaceFrom (newline :: qs "CopyQ ") [newline]
                              (length (qs "CopyQ ")) (l ++ tail)
          else newline :: replaceFrom (newline :: qs "CopyQ ") [newline] 0 (l ++ tail)).
  rewrite startsWith_line;
    [|simpl; intros H; repeat (destruct H as [H|H]; [discriminate|]); exact H
     |exact Hb].
  destruct (startsWith l (qs "CopyQ ")) eqn:E.
  - assert (Hs : stripNoise l = skipn 6 l)
      by (unfold stripNoise; rewrite E; reflexivity).
    rewrite Hs. rewrite (startsWith_split _ _ E) at 1. rewrite <- app_assoc.
    rewrite (replaceFrom_skip (qs "CopyQ ") [newline] (qs "CopyQ ")).
    change (length (qs "CopyQ ")) with 6.
    rewrite replaceFrom_line by (apply skipn_no_newline; exact Hl).
    rewrite IH. reflexivity.
  - assert (Hs : stripNoise l = l)
      by (unfold stripNoise; rewrite E; reflexivity).
    rewrite Hs. rewrite replaceFrom_line by exact Hl.
    rewrite IH. reflexivity.
Qed.

Lemma rxLens_literal : forall lab off s n,
  In n (rxLens CaseSensitive (RxLiteral lab) off s) <->
  n = length lab /\ startsWith s lab = true.
Proof.
  induction lab as [|c lab IH]; intros off s n.
  - simpl. split; [intros [<-|[]]; auto|intros [-> _]; auto].
  - cbn [RxLiteral]. rewrite rxLens_seq. split.
    + intros (a & m & Ha & Hm & ->).
      apply rxLens_char in Ha. destruct Ha as (-> & c' & s' & -> & Hc).
      cbn [skipn] in Hm. apply IH in Hm. destruct Hm as [-> Hs].
      cbn [charMatches] in Hc. apply Ascii.eqb_eq in Hc. subst c'.
      split; [reflexivity|]. cbn [startsWith]. rewrite Ascii.eqb_refl. exact Hs.
    + intros [-> Hs]. destruct s as [|c' s']; [discriminate|].
      cbn [startsWith] in Hs. apply andb_prop in Hs. destruct Hs as [Hc Hs].
      exists 1, (length lab). split; [|split; [|reflexivity]].
      * apply rxLens_char. split; [reflexivity|]. exists c', s'.
        split; [reflexivity|]. cbn [charMatches]. rewrite Ascii.eqb_sym. exact Hc.
      * cbn [skipn]. apply IH. auto.
Qed.

Lemma spanLen_line : forall l tail,
  ~ In newline l -> lineBreak tail ->
  spanLen (classMatches CaseSensitive [newline]) (l ++ tail) = length l.
Proof.
  induction l as [|c l IH]; intros tail Hl Ht.
  - destruct Ht as [->|[t ->]]; reflexivity.
  - cbn [app spanLen].
    assert (Hc : classMatches CaseSensitive [newline] c = true).
    { unfold classMatches, noneOf. cbn [existsb].
      destruct (Ascii.eqb_spec c newline) as [->|]; [|reflexivity].
      exfalso. apply Hl. left. reflexivity. }
    rewrite Hc. cbn [length]. f_equal. apply IH; [|exact Ht].
    intros Hin. apply Hl. right. exact Hin.
Qed.

Lemma lineFilter_lens label off s len :
  In len (rxLens CaseSensitive (lineFilterPattern label) off s) <->
  exists s', s = newline :: s' /\ startsWith s' label = true /\
    len <= 1 + length label
           + spanLen (classMatches CaseSensitive [newline]) (skipn (length label) s') /\
    1 + length label <= len.
Proof.
  unfold lineFilterPattern. rewrite rxLens_seq. split.
  - intros (a & m & Ha & Hm & ->).
    apply rxLens_char in Ha. destruct Ha as (-> & c & s' & -> & Hc).
    cbn [charMatches] in Hc. apply Ascii.eqb_eq in Hc. subst c.
    cbn [skipn] in Hm. apply rxLens_seq in Hm.
    destruct Hm as (b & n & Hb & Hn & ->).
    apply rxLens_literal in Hb. destruct Hb as [-> Hs].
    apply rxLens_star_noneOf in Hn. apply spanLen_spec in Hn.
    exists s'. split; [reflexivity|]. split; [exact Hs|]. lia.
  - intros (s' & -> & Hs & Hle & Hge).
    exists 1, (len - 1). split; [|split; [|lia]].
    + apply rxLens_char. split; [reflexivity|]. exists newline, s'.
      split; [reflexivity|]. cbn [charMatches]. apply Ascii.eqb_refl.
    + cbn [skipn]. apply rxLens_seq.
      exists (length label), (len - 1 - length label).
      split; [|split; [|lia]].
      * apply rxLens_literal. auto.
      * apply rxLens_star_noneOf. apply spanLen_spec. lia.
Qed.

Lemma lineFilter_matchHere_other label off c s :
  c <> newline ->
  matchHere CaseSensitive (lineFilterPattern label) off (c :: s) = None.
Proof.
  intros Hc. unfold matchHere. apply longest_none.
  destruct (rxLens CaseSensitive (lineFilterPattern label) off (c :: s)) as [|n l] eqn:E;
    [reflexivity|].
  assert (Hin : In n (rxLens CaseSensitive (lineFilterPattern label) off (c :: s)))
    by (rewrite E; left; reflexivity).
  apply lineFilter_lens in Hin. destruct Hin as (s' & Hs & _).
  inversion Hs. contradiction.
Qed.

Lemma lineFilter_matchHere_line label off l tail :
  ~ In newline label -> ~ In newline l -> lineBreak tail ->
  matchHere CaseSensitive (lineFilterPattern label) off (newline :: l ++ tail)
  = if startsWith l label then Some (S (length l)) else None.
Proof.
  intros Hlab Hl Ht. unfold matchHere.
  destruct (startsWith l label) eqn:E.
  - apply longest_spec.
    assert (Hspan : 1 + length label
                    + spanLen (classMatches CaseSensitive [newline])
                        (skipn (length label) (l ++ tail)) = S (length l)).
    { rewrite (startsWith_split _ _ E) at 1. rewrite <- app_assoc.
      rewrite skipn_app, Nat.sub_diag, skipn_all. cbn [app skipn].
      rewrite spanLen_line; [|apply skipn_no_newline; exact Hl|exact Ht].
      rewrite (startsWith_split _ _ E) at 2. rewrite length_app. lia. }
    split.
    + apply lineFilter_lens. exists (l ++ tail). split; [reflexivity|].
      split; [rewrite startsWith_line; assumption|]. rewrite Hspan.
      split; [lia|]. 
      rewrite (startsWith_split _ _ E), length_app. lia.
    + intros x Hx. apply lineFilter_lens in Hx.
      destruct Hx as (s' & Hs & _ & Hle & _). inversion Hs; subst s'.
      rewrite Hspan in Hle. exact Hle.
  - apply longest_none.
    destruct (rxLens CaseSensitive (lineFilterPattern label) off (newline :: l ++ tail))
      as [|n r] eqn:R; [reflexivity|].
    assert (Hin : In n (rxLens CaseSensitive (lineFilterPattern label) off
                          (newline :: l ++ tail)))
      by (rewrite R; left; reflexivity).
    apply lineFilter_lens in Hin. destruct Hin as (s' & Hs & Hst & _).
    inversion Hs; subst s'. rewrite startsWith_line in Hst by assumption.
    congruence.
Qed.

Section Remove.

Variable label : QString.
Hypothesis label_line : ~ In newline label.
Let rx := lineFilterPattern label.

Lemma removeFrom_skip : forall x y i,
  removeFrom rx (length x) i (x ++ y) = removeFrom rx 0 (i + length x) y.
Proof.
  induction x as [|c x IH]; intros y i.
  - rewrite Nat.add_0_r. reflexivity.
  - cbn [length app removeFrom]. rewrite IH. f_equal. lia.
Qed.

Lemma removeFrom_line : forall l tail i,
  ~ In newline l ->
  removeFrom rx 0 i (l ++ tail) = l ++ removeFrom rx 0 (i + length l) tail.
Proof.
  induction l as [|c l IH]; intros tail i Hl.
  - rewrite Nat.add_0_r. reflexivity.
  - cbn [app removeFrom]. unfold rx at 1.
    rewrite lineFilter_matchHere_other
      by (intros ->; apply Hl; left; reflexivity).
    fold rx. rewrite IH by (intros Hin; apply Hl; right; exact Hin).
    cbn [length]. do 3 f_equal. lia.
Qed.

Lemma removeFrom_lines : forall rest i,
  Forall (fun l => ~ In newline l) rest ->
  removeFrom rx 0 i (joinLines [] rest)
  = joinLines [] (filter (fun l => negb (startsWith l label)) rest).
Proof.
  induction rest as [|l rest IH]; intros i Hr; [reflexivity|].
  inversion Hr as [|? ? Hl Hrest]; subst.
  unfold joinLines in *. cbn [app flat_map filter] in *.
  set (tail := flat_map (fun l0 => newline :: l0) rest) in *.
  change ((newline :: l) ++ tail) with (newline :: l ++ tail).
  cbn [removeFrom]. unfold rx at 1.
  rewrite (lineFilter_matchHere_line label i l tail label_line Hl
             (joinLines_lineBreak rest)).
  fold rx. destruct (startsWith l label); cbn [negb].
  - rewrite removeFrom_skip. apply IH. exact Hrest.
  - rewrite removeFrom_line by exact Hl. cbn [flat_map app].
    rewrite IH by exact Hrest. reflexivity.
Qed.

End Remove.

Lemma logLevelLabel_line level : ~ In newline (logLevelLabel level).
Proof.
  destruct level; simpl; intros H;
    repeat (destruct H as [H|H]; [discriminate|]); exact H.
Qed.

(** [showLogLines] on a text given by its lines. *)
Lemma showLogLines_lines first rest show level :
  ~ In newline first -> Forall (fun l => ~ In newline l) rest ->
  showLogLines (joinLines first rest) show level
  = joinLines first (filter (lineShown show level) rest).
Proof.
  intros Hf Hr. unfold showLogLines, lineShown. destruct show.
  - cbn [orb]. f_equal. symmetry. apply forallb_filter_id.
    apply forallb_forall. reflexivity.
  - cbn [orb]. unfold remove.
    unfold joinLines.
    rewrite (removeFrom_line (logLevelLabel level)) by exact Hf.
    f_equal.
    apply (removeFrom_lines (logLevelLabel level) (logLevelLabel_line level)
             rest _ Hr).
Qed.

Lemma filter_no_newline f (rest : list QString) :
  Forall (fun l => ~ In newline l) rest ->
  Forall (fun l => ~ In newline l) (filter f rest).
Proof.
  intros H. apply Forall_forall. intros l Hin. apply filter_In in Hin.
  rewrite Forall_forall in H. apply H. apply Hin.
Qed.

Lemma filter_filter {A : Type} (f g : A -> bool) : forall l,
  filter g (filter f l) = filter (fun x => f x && g x) l.
Proof.
  induction l as [|x l IH]; [reflexivity|].
  simpl. destruct (f x); simpl; [destruct (g x)|]; rewrite IH; reflexivity.
Qed.

(** C10. The first line of the log is never changed: it keeps a leading
    [CopyQ ] and stays even when it starts with the label of a hidden
    level.  Every further line loses a leading [CopyQ ] and is then
    removed exactly when it starts with the label of a hidden level. *)
Theorem logContent_lines (d : LogDialog) (first : QString)
  (rest : list QString) :
  ~ In newline first -> Forall (fun l => ~ In newline l) rest ->
  logContent d (joinLines first rest)
  = joinLines first (filter (lineVisible d) (map stripNoise rest)).
Proof.
  intros Hf Hr. unfold logContent.
  rewrite (replace_lines first rest Hf Hr).
  assert (H0 : Forall (fun l => ~ In newline l) (map stripNoise rest)).
  { apply Forall_forall. intros l Hin. apply in_map_iff in Hin.
    destruct Hin as (l0 & <- & Hin). apply stripNoise_no_newline.
    rewrite Forall_forall in Hr. apply Hr. exact Hin. }
  rewrite showLogLines_lines by assumption.
  rewrite showLogLines_lines by (try apply filter_no_newline; assumption).
  rewrite showLogLines_lines
    by (repeat (try apply filter_no_newline); assumption).
  rewrite showLogLines_lines
    by (repeat (try apply filter_no_newline); assumption).
  rewrite showLogLines_lines
    by (repeat (try apply filter_no_newline); assumption).
  rewrite !filter_filter. f_equal. apply filter_ext.
  intros l. unfold lineVisible. cbn [forallb levelShown].
  rewrite andb_true_r, !andb_assoc. reflexivity.
Qed.

Lemma logContent_lines_witness :
  ~ In newline (qs "CopyQ Note: boot") /\
  Forall (fun l => ~ In newline l) [qs "CopyQ Note: ok"; qs "CopyQ Error: bad"] /\
  logContent noteHidden
    (joinLines (qs "CopyQ Note: boot") [qs "CopyQ Note: ok"; qs "CopyQ Error: bad"])
  = joinLines (qs "CopyQ Note: boot")
      (filter (lineVisible noteHidden)
         (map stripNoise [qs "CopyQ Note: ok"; qs "CopyQ Error: bad"])).
Proof.
  assert (H1 : ~ In newline (qs "CopyQ Note: boot")).
  { simpl. intros H. repeat (destruct H as [H|H]; [discriminate|]). exact H. }
  assert (H2 : Forall (fun l => ~ In newline l)
                 [qs "CopyQ Note: ok"; qs "CopyQ Error: bad"]).
  { repeat constructor; simpl; intros H;
      repeat (destruct H as [H|H]; [discriminate|]); exact H. }
  split; [exact H1|]. split; [exact H2|].
  exact (logContent_lines noteHidden _ _ H1 H2).
Defined.

(** * Further properties of the dialog *)

(** ** Batches of a styling hook keep the text *)



Lemma characterCount_setPlainText s : 1 <= characterCount (setPlainText s).
Proof.
  unfold setPlainText. destruct (textBlocks_cons s) as (b & bs & ->).
  cbn [map characterCount]. unfold blockLength. lia.
Qed.

Section StylingBatches.

Variable m_re : QRegExp.
Variable classify : QString -> option QTextCharFormat.
Variable hook : QTextCursor -> QTextDocument -> QTextDocument.
Hypothesis hook_styles : stylingHook classify hook.

Lemma decorateAll_texts : forall visited doc,
  blockTexts (decorateAll hook visited doc) = blockTexts doc.
Proof.
  induction visited as [|c rest IH]; intros doc; [reflexivity|].
  cbn [decorateAll fold_left]. fold (decorateAll hook rest (hook c doc)).
  rewrite IH. apply (hook_texts classify hook hook_styles).
Qed.

Lemma decorate_between elapsed doc dec :
  exists doc' dec' visited,
    decorate m_re hook elapsed doc dec = Some (doc', dec', visited) /\
    blockTexts doc' = blockTexts doc /\
    betweenBatches dec' /\
    pending dec' <= Nat.max 1 (characterCount doc - 1).
Proof.
  unfold decorate, decorateBatch. cbn [m_tc m_timerDecorate].
  destruct (decorateLoop_spec m_re hook (selectionStart (cursorAtEnd doc))
              elapsed 0 (m_timerDecorate dec) doc (cursorAtEnd doc) (le_n _))
    as (doc' & dec' & v & Hr & Hall & Hdec & Hcase).
  exists doc', dec', v. split; [exact Hr|].
  split; [rewrite Hall; apply decorateAll_texts|].
  destruct Hcase as [[-> _]|(c & -> & Hne & Hl & _)].
  - split; [intros _; reflexivity|].
    unfold pending. cbn [m_tc m_timerDecorate].
    destruct (m_timerDecorate dec); lia.
  - split; [intros H; discriminate|].
    pose proof (decreasingFrom_last v _ (cursorAtEnd doc) Hne Hdec) as Hlt.
    rewrite Hl, cursorAtEnd_start in Hlt.
    unfold pending. cbn [m_tc m_timerDecorate]. lia.
Qed.

Lemma timeout_between elapsed doc dec :
  m_timerDecorate dec = true ->
  exists doc' dec' visited,
    timeout m_re hook elapsed doc dec = Some (doc', dec', visited) /\
    blockTexts doc' = blockTexts doc /\
    betweenBatches dec' /\
    pending dec' < pending dec.
Proof.
  intros Ht. unfold timeout, decorateBatch. cbn [m_tc m_timerDecorate].
  unfold pending at 2. rewrite Ht.
  destruct (m_tc dec) as [c|].
  - destruct (decorateLoop_spec m_re hook (selectionStart c) elapsed 0 false
                doc c (le_n _))
      as (doc' & dec' & v & Hr & Hall & Hdec & Hcase).
    exists doc', dec', v. split; [exact Hr|].
    split; [rewrite Hall; apply decorateAll_texts|].
    destruct Hcase as [[-> _]|(c' & -> & Hne & Hl & _)].
    + split; [intros _; reflexivity|]. unfold pending. cbn. lia.
    + split; [intros H; discriminate|].
      pose proof (decreasingFrom_last v _ c Hne Hdec) as Hlt.
      rewrite Hl in Hlt. unfold pending. cbn [m_tc m_timerDecorate]. lia.
  - exists doc, {| m_tc := None; m_timerDecorate := false |}, [].
    split; [reflexivity|]. split; [reflexivity|].
    split; [intros _; reflexivity|]. unfold pending. cbn. lia.
Qed.

End StylingBatches.

(** ** The dialog between events *)

Lemma logContent_flags d d' log :
  sameFlags d d' -> logContent d' log = logContent d log.
Proof.
  intros H. unfold logContent.
  pose proof (H LogError) as He. pose proof (H LogWarning) as Hw.
  pose proof (H LogNote) as Hn. pose proof (H LogDebug) as Hd.
  pose proof (H LogTrace) as Ht. cbn [levelShown] in *.
  rewrite He, Hw, Hn, Hd, Ht. reflexivity.
Qed.

Lemma updateLog_state elapsedLog elapsedString log d :
  exists d1,
    updateLog elapsedLog elapsedString log d = Some d1 /\
    sameFlags d d1 /\
    blockTexts (textBrowserLog d1)
    = blockTexts (setPlainText (logContent d log)) /\
    betweenBatches (m_logDecorator d1) /\
    betweenBatches (m_stringDecorator d1) /\
    pending (m_logDecorator d1)
    <= characterCount (setPlainText (logContent d log)) /\
    pending (m_stringDecorator d1)
    <= characterCount (setPlainText (logContent d log)).
Proof.
  unfold updateLog.
  set (doc := setPlainText (logContent d log)).
  pose proof (characterCount_setPlainText (logContent d log)) as Hc. fold doc in Hc.
  destruct (decorate_between LogDecorator.m_re _ _ (LogDecorator_styles logFont)
              elapsedLog doc (m_logDecorator d))
    as (doc1 & dec1 & v1 & -> & Ht1 & Hb1 & Hp1).
  destruct (decorate_between StringDecorator.m_re _ _ StringDecorator_styles
              elapsedString doc1 (m_stringDecorator d))
    as (doc2 & dec2 & v2 & -> & Ht2 & Hb2 & Hp2).
  eexists. split; [reflexivity|].
  cbn [textBrowserLog setDocument m_logDecorator m_stringDecorator].
  split; [intros level; destruct level; reflexivity|].
  split; [rewrite Ht2; exact Ht1|]. split; [exact Hb1|]. split; [exact Hb2|].
  rewrite <- (characterCount_texts doc1), Ht1, characterCount_texts in Hp2.
  lia.
Qed.

Lemma timerEvent_state ev elapsed d :
  exists d',
    timerEvent ev elapsed d = Some d' /\
    sameFlags d d' /\
    blockTexts (textBrowserLog d') = blockTexts (textBrowserLog d) /\
    (betweenBatches (m_logDecorator d) -> betweenBatches (m_logDecorator d')) /\
    (betweenBatches (m_stringDecorator d) ->
     betweenBatches (m_stringDecorator d')) /\
    match ev with
    | LogTimer =>
        pending (m_logDecorator d') <= pending (m_logDecorator d) - 1 /\
        m_stringDecorator d' = m_stringDecorator d
    | StringTimer =>
        pending (m_stringDecorator d') <= pending (m_stringDecorator d) - 1 /\
        m_logDecorator d' = m_logDecorator d
    end.
Proof.
  assert (Hflags : forall doc a b, sameFlags d (setDocument d doc a b))
    by (intros doc a b level; destruct level; reflexivity).
  assert (Hrest : forall dec, m_timerDecorate dec = false ->
                              pending dec <= pending dec - 1)
    by (intros dec H; unfold pending; rewrite H; lia).
  destruct ev; unfold timerEvent.
  - destruct (m_timerDecorate (m_logDecorator d)) eqn:Ht.
    + destruct (timeout_between LogDecorator.m_re _ _ (LogDecorator_styles logFont)
                  elapsed (textBrowserLog d) (m_logDecorator d) Ht)
        as (doc' & dec' & v & -> & Htx & Hb & Hp).
      eexists. split; [reflexivity|].
      cbn [textBrowserLog setDocument m_logDecorator m_stringDecorator].
      split; [apply Hflags|]. split; [exact Htx|]. split; [auto|].
      split; [auto|]. split; [lia|reflexivity].
    + exists d. split; [reflexivity|]. split; [intros level; reflexivity|].
      split; [reflexivity|]. split; [auto|]. split; [auto|].
      split; [apply Hrest; exact Ht|reflexivity].
  - destruct (m_timerDecorate (m_stringDecorator d)) eqn:Ht.
    + destruct (timeout_between StringDecorator.m_re _ _ StringDecorator_styles
                  elapsed (textBrowserLog d) (m_stringDecorator d) Ht)
        as (doc' & dec' & v & -> & Htx & Hb & Hp).
      eexists. split; [reflexivity|].
      cbn [textBrowserLog setDocument m_logDecorator m_stringDecorator].
      split; [apply Hflags|]. split; [exact Htx|]. split; [auto|].
      split; [auto|]. split; [lia|reflexivity].
    + exists d. split; [reflexivity|]. split; [intros level; reflexivity|].
      split; [reflexivity|]. split; [auto|]. split; [auto|].
      split; [apply Hrest; exact Ht|reflexivity].
Qed.

Lemma runEvents_state : forall evs d,
  betweenBatches (m_logDecorator d) -> betweenBatches (m_stringDecorator d) ->
  exists d',
    runEvents evs d = Some d' /\
    sameFlags d d' /\
    blockTexts (textBrowserLog d') = blockTexts (textBrowserLog d) /\
    betweenBatches (m_logDecorator d') /\
    betweenBatches (m_stringDecorator d') /\
    pending (m_logDecorator d')
    <= pending (m_logDecorator d) - timeouts LogTimer evs /\
    pending (m_stringDecorator d')
    <= pending (m_stringDecorator d) - timeouts StringTimer evs.
Proof.
  induction evs as [|[ev elapsed] evs IH]; intros d HbL HbS.
  - exists d. split; [reflexivity|]. split; [intros level; reflexivity|].
    split; [reflexivity|]. cbn [timeouts]. repeat split; auto; lia.
  - destruct (timerEvent_state ev elapsed d)
      as (d1 & E & Hf & Ht & HL & HS & Hp).
    destruct (IH d1 (HL HbL) (HS HbS))
      as (d2 & E2 & Hf2 & Ht2 & HL2 & HS2 & HpL & HpS).
    exists d2. cbn [runEvents]. rewrite E. split; [exact E2|].
    split; [intros level; rewrite Hf2; apply Hf|].
    split; [rewrite Ht2; exact Ht|]. split; [exact HL2|]. split; [exact HS2|].
    destruct ev; destruct Hp as [Hp Hsame]; cbn [timeouts];
      rewrite Hsame in *; lia.
Qed.

Lemma pending_idle dec :
  betweenBatches dec -> pending dec = 0 -> dec = idleDecorator.
Proof.
  unfold betweenBatches, pending. destruct dec as [tc timer]. cbn.
  destruct timer; [destruct tc; discriminate|].
  intros H _. rewrite H by reflexivity. reflexivity.
Qed.

(** X5.  After [updateLog], whatever the clocks, a decorator needs at
    most as many timeouts as the shown text has positions: once the
    event loop has served that many timeouts of each timer, in any
    order, both passes are over and no continuation is pending. *)
Theorem decorators_settle
  (elapsedLog elapsedString : nat -> Z) (log : QString) (d : LogDialog)
  (evs : list (TimerEvent * (nat -> Z))) :
  characterCount (setPlainText (logContent d log)) <= timeouts LogTimer evs ->
  characterCount (setPlainText (logContent d log)) <= timeouts StringTimer evs ->
  exists d1 d2,
    updateLog elapsedLog elapsedString log d = Some d1 /\
    runEvents evs d1 = Some d2 /\ idle d2.
Proof.
  intros HL HS.
  destruct (updateLog_state elapsedLog elapsedString log d)
    as (d1 & E1 & _ & _ & Hb1 & Hb2 & Hp1 & Hp2).
  destruct (runEvents_state evs d1 Hb1 Hb2)
    as (d2 & E2 & _ & _ & Hb1' & Hb2' & Hp1' & Hp2').
  exists d1, d2. split; [exact E1|]. split; [exact E2|].
  split; apply pending_idle; try assumption; lia.
Qed.

Lemma decorators_settle_witness :
  let evs := concat (repeat [(LogTimer, fun _ : nat => 25%Z);
                             (StringTimer, fun _ : nat => 25%Z)] 30) in
  characterCount (setPlainText (logContent noteHidden rawLog))
  <= timeouts LogTimer evs /\
  characterCount (setPlainText (logContent noteHidden rawLog))
  <= timeouts StringTimer evs /\
  exists d1 d2,
    updateLog (fun _ => 25%Z) (fun _ => 25%Z) rawLog noteHidden = Some d1 /\
    runEvents evs d1 = Some d2 /\ idle d2.
Proof.
  intros evs.
  assert (H1 : characterCount (setPlainText (logContent noteHidden rawLog))
               <= timeouts LogTimer evs) by (vm_compute; lia).
  assert (H2 : characterCount (setPlainText (logContent noteHidden rawLog))
               <= timeouts StringTimer evs) by (vm_compute; lia).
  split; [exact H1|]. split; [exact H2|].
  exact (decorators_settle (fun _ => 25%Z) (fun _ => 25%Z) rawLog noteHidden
           evs H1 H2).
Defined.

(** ** Any text as lines *)

Lemma splitBlocks_lines : forall s first rest,
  splitBlocks s = first :: rest ->
  s = joinLines first rest /\ ~ In newline first /\
  Forall (fun l => ~ In newline l) rest.
Proof.
  induction s as [|c s IH]; intros first rest H.
  - cbn in H. injection H as <- <-. repeat split; auto.
  - cbn [splitBlocks] in H.
    destruct (splitBlocks_cons s) as (b & bs & E). rewrite E in H.
    destruct (IH b bs E) as (Hs & Hb & Hbs).
    destruct (Ascii.eqb_spec c newline) as [->|Hc]; injection H as <- <-.
    + split; [|split; [intros []|constructor; assumption]].
      unfold joinLines. cbn [app flat_map]. f_equal. exact Hs.
    + split; [|split; [|exact Hbs]].
      * unfold joinLines in *. cbn [app]. f_equal. exact Hs.
      * intros [Heq|Hin]; [congruence|contradiction].
Qed.


(** ** The window between events *)

Lemma invokeSlot_state level elapsedLog elapsedString log show d :
  exists d1,
    invokeSlot (slotOf level) elapsedLog elapsedString log show d = Some d1 /\
    levelShown d1 level = show /\
    (forall other, other <> level -> levelShown d1 other = levelShown d other) /\
    blockTexts (textBrowserLog d1)
    = blockTexts (setPlainText (logContent d1 log)) /\
    betweenBatches (m_logDecorator d1) /\
    betweenBatches (m_stringDecorator d1).
Proof.
  destruct level; cbn [slotOf invokeSlot];
    unfold showError, showWarning, showNote, showDebug, showTrace;
    match goal with
    | |- context [updateLog _ _ _ ?d0] =>
        destruct (updateLog_state elapsedLog elapsedString log d0)
          as (d1 & E & Hf & Ht & Hb1 & Hb2 & _);
        exists d1; split; [exact E|];
        split; [rewrite Hf; reflexivity|];
        split; [intros other Ho; rewrite Hf; destruct other;
                try reflexivity; congruence|];
        split; [rewrite (logContent_flags d0 d1 log Hf); exact Ht|];
        split; assumption
    end.
Qed.

Lemma LogDialog_new_state elapsedLog elapsedString log :
  exists w,
    LogDialog_new elapsedLog elapsedString log = Some w /\
    windowState log w /\
    forall level, levelShown (dialog w) level = true.
Proof.
  unfold LogDialog_new.
  match goal with
  | |- context [updateLog _ _ _ ?d0] =>
      destruct (updateLog_state elapsedLog elapsedString log d0)
        as (d1 & E & Hf & Ht & Hb1 & Hb2 & _); rewrite E;
      assert (Hall : forall level, levelShown d1 level = true)
        by (intros level; rewrite Hf; destruct level; reflexivity);
      eexists; split; [reflexivity|]; split; [|exact Hall];
      unfold windowState; cbn [dialog layoutFilters];
      split; [rewrite (logContent_flags d0 d1 log Hf); exact Ht|];
      split; [exact Hb1|]; split; [exact Hb2|]
  end.
  unfold addFilterCheckBox, filterLevels. cbn [app].
  repeat constructor; cbn [cb_text cb_checked cb_toggled];
    try reflexivity; symmetry; apply Hall.
Qed.

Lemma uiEvent_state ev log w :
  windowState log w ->
  exists w', uiEvent ev w = Some w' /\ windowState (lastLog log [ev]) w'.
Proof.
  intros (Ht & HbL & HbS & Hboxes). destruct ev as [i log' eL eS|timer elapsed].
  - cbn [uiEvent lastLog].
    destruct (layoutFilters w) as [|c0 l] eqn:El; inversion Hboxes as [|? ? ? ? P0 H0]; subst.
    destruct l as [|c1 l]; inversion H0 as [|? ? ? ? P1 H1]; subst.
    destruct l as [|c2 l]; inversion H1 as [|? ? ? ? P2 H2]; subst.
    destruct l as [|c3 l]; inversion H2 as [|? ? ? ? P3 H3]; subst.
    destruct l as [|c4 l]; inversion H3 as [|? ? ? ? P4 H4]; subst.
    inversion H4; subst.
    destruct P0 as (T0 & S0 & K0), P1 as (T1 & S1 & K1), P2 as (T2 & S2 & K2),
             P3 as (T3 & S3 & K3), P4 as (T4 & S4 & K4).
    destruct (Nat.ltb_spec i 5) as [Hi|Hi].
    2:{ assert (Hn : nth_error [c0; c1; c2; c3; c4] i = None)
          by (apply nth_error_None; cbn [length]; lia).
        rewrite Hn. exists w. split; [reflexivity|].
        unfold windowState. rewrite El.
        repeat split; auto; repeat constructor; auto. }
    destruct i as [|[|[|[|[|i]]]]]; [| | | | |lia]; cbn [nth_error].
    + rewrite S0.
      destruct (invokeSlot_state LogError eL eS log' (negb (cb_checked c0)) (dialog w))
        as (d1 & -> & Hnew & Hother & Ht1 & Hb1 & Hb2).
      eexists. split; [reflexivity|]. unfold windowState.
      cbn [dialog layoutFilters toggleCheckBox].
      repeat split; auto; repeat constructor; cbn [cb_text cb_checked cb_toggled];
        repeat split; auto; rewrite Hother by discriminate; assumption.
    + rewrite S1.
      destruct (invokeSlot_state LogWarning eL eS log' (negb (cb_checked c1)) (dialog w))
        as (d1 & -> & Hnew & Hother & Ht1 & Hb1 & Hb2).
      eexists. split; [reflexivity|]. unfold windowState.
      cbn [dialog layoutFilters toggleCheckBox].
      repeat split; auto; repeat constructor; cbn [cb_text cb_checked cb_toggled];
        repeat split; auto; rewrite Hother by discriminate; assumption.
    + rewrite S2.
      destruct (invokeSlot_state LogNote eL eS log' (negb (cb_checked c2)) (dialog w))
        as (d1 & -> & Hnew & Hother & Ht1 & Hb1 & Hb2).
      eexists. split; [reflexivity|]. unfold windowState.
      cbn [dialog layoutFilters toggleCheckBox].
      repeat split; auto; repeat constructor; cbn [cb_text cb_checked cb_toggled];
        repeat split; auto; rewrite Hother by discriminate; assumption.
    + rewrite S3.
      destruct (invokeSlot_state LogDebug eL eS log' (negb (cb_checked c3)) (dialog w))
        as (d1 & -> & Hnew & Hother & Ht1 & Hb1 & Hb2).
      eexists. split; [reflexivity|]. unfold windowState.
      cbn [dialog layoutFilters toggleCheckBox].
      repeat split; auto; repeat constructor; cbn [cb_text cb_checked cb_toggled];
        repeat split; auto; rewrite Hother by discriminate; assumption.
    + rewrite S4.
      destruct (invokeSlot_state LogTrace eL eS log' (negb (cb_checked c4)) (dialog w))
        as (d1 & -> & Hnew & Hother & Ht1 & Hb1 & Hb2).
      eexists. split; [reflexivity|]. unfold windowState.
      cbn [dialog layoutFilters toggleCheckBox].
      repeat split; auto; repeat constructor; cbn [cb_text cb_checked cb_toggled];
        repeat split; auto; rewrite Hother by discriminate; assumption.
  - cbn [uiEvent lastLog].
    destruct (timerEvent_state timer elapsed (dialog w))
      as (d1 & -> & Hf & Ht1 & HL & HS & _).
    eexists. split; [reflexivity|]. unfold windowState.
    cbn [dialog layoutFilters].
    split; [rewrite (logContent_flags _ _ log Hf), Ht1; exact Ht|].
    split; [auto|]. split; [auto|].
    eapply Forall2_impl; [|exact Hboxes].
    intros cb level (A & B & C). rewrite Hf. auto.
Qed.

Lemma runUi_state : forall evs log w,
  windowState log w ->
  exists w', runUi evs w = Some w' /\ windowState (lastLog log evs) w'.
Proof.
  induction evs as [|ev evs IH]; intros log w H.
  - exists w. split; [reflexivity|exact H].
  - destruct (uiEvent_state ev log w H) as (w1 & E & H1).
    destruct (IH _ _ H1) as (w2 & E2 & H2).
    exists w2. cbn [runUi]. rewrite E. split; [exact E2|].
    destruct ev; exact H2.
Qed.











(** X2.  The filter row holds the five check boxes Error, Warning, Note,
    Debug, Trace, in this order, and after any clicks and timeouts the
    state of each box is the visibility flag of its own level. *)
Theorem check_boxes_show_flags
  (elapsedLog elapsedString : nat -> Z) (log : QString) (evs : list UiEvent) :
  exists w0 w,
    LogDialog_new elapsedLog elapsedString log = Some w0 /\
    runUi evs w0 = Some w /\
    Forall2
      (fun cb level =>
         cb_text cb = logLevelLabel level /\
         cb_checked cb = levelShown (dialog w) level)
      (layoutFilters w) filterLevels.
Proof.
  destruct (LogDialog_new_state elapsedLog elapsedString log) as (w0 & E0 & H0 & _).
  destruct (runUi_state evs log w0 H0) as (w & E & (_ & _ & _ & H)).
  exists w0, w. split; [exact E0|]. split; [exact E|].
  eapply Forall2_impl; [|exact H]. intros cb level (A & _ & C). auto.
Qed.









Lemma showLogLines_splitBlocks content show level first rest :
  splitBlocks content = first :: rest ->
  showLogLines content show level
  = joinLines first (filter (lineShown show level) rest) /\
  ~ In newline first /\ Forall (fun l => ~ In newline l) rest.
Proof.
  intros H. destruct (splitBlocks_lines _ _ _ H) as (-> & Hf & Hr).
  split; [apply showLogLines_lines; assumption|]. split; assumption.
Qed.

(** X6.  [showLogLines] takes out whole lines only, so two of its calls
    commute, whatever the texts, flags and levels, and a call made twice
    does what it does once: the order of the five calls in [updateLog]
    plays no role. *)
Theorem showLogLines_commute
  (content : QString) (show1 show2 : bool) (level1 level2 : LogLevel) :
  showLogLines (showLogLines content show1 level1) show2 level2
  = showLogLines (showLogLines content show2 level2) show1 level1 /\
  showLogLines (showLogLines content show1 level1) show1 level1
  = showLogLines content show1 level1.
Proof.
  destruct (splitBlocks_cons content) as (first & rest & Hs).
  destruct (showLogLines_splitBlocks content show1 level1 _ _ Hs) as (E1 & Hf & Hr).
  destruct (showLogLines_splitBlocks content show2 level2 _ _ Hs) as (E2 & _ & _).
  rewrite E1, E2.
  rewrite !showLogLines_lines by (try apply filter_no_newline; assumption).
  rewrite !filter_filter. split; f_equal; apply filter_ext; intros l.
  - apply andb_comm.
  - apply andb_diag.
Qed.

(** X8.  The five label formats are bold, black or coloured on white,
    in the font given to the constructor; no two levels share a format,
    and none of them is the string format or the default format. *)
Theorem label_formats_distinct (font : QFont) :
  (forall level,
      fmt_font (levelFormat font level) = Some (setBold font true) /\
      fmt_background (levelFormat font level) = Some Qt_white) /\
  (forall level1 level2,
      levelFormat font level1 = levelFormat font level2 -> level1 = level2) /\
  (forall level,
      levelFormat font level <> StringDecorator.m_stringFormat /\
      levelFormat font level <> QTextCharFormat_new).
Proof.
  split; [intros level; destruct level; split; reflexivity|]. split.
  - intros level1 level2 H. destruct level1, level2;
      try reflexivity; discriminate H.
  - intros level. destruct level; split; discriminate.
Qed.

(** ** Formats by position *)

Lemma nth_error_mapBlockFormats f : forall b pos i,
  nth_error (mapBlockFormats f pos b) i
  = option_map (fun cx => (fst cx, f (pos + i) (snd cx))) (nth_error b i).
Proof.
  induction b as [|[c x] b IH]; intros pos i.
  - destruct i; reflexivity.
  - destruct i as [|i]; simpl.
    + rewrite Nat.add_0_r. reflexivity.
    + rewrite IH. replace (S pos + i) with (pos + S i) by lia. reflexivity.
Qed.

Lemma nth_error_mapFormats f : forall doc pos i,
  nth_error (documentChars (mapFormats f pos doc)) i
  = option_map
      (fun cx => (fst cx, if sepAt doc i then snd cx else f (pos + i) (snd cx)))
      (nth_error (documentChars doc) i).
Proof.
  induction doc as [|b doc IH]; intros pos i.
  - destruct i; reflexivity.
  - cbn [mapFormats documentChars sepAt].
    destruct (Nat.ltb_spec i (length b)) as [Hlt|Hge].
    + rewrite !nth_error_app1
        by (rewrite ?mapBlockFormats_length; exact Hlt).
      apply nth_error_mapBlockFormats.
    + rewrite !nth_error_app2
        by (rewrite ?mapBlockFormats_length; exact Hge).
      rewrite mapBlockFormats_length.
      destruct (Nat.eqb_spec i (length b)) as [->|Hne].
      * rewrite Nat.sub_diag. reflexivity.
      * destruct (i - length b) as [|j] eqn:Ej; [lia|].
        cbn [nth_error]. rewrite IH. unfold blockLength.
        replace (i - S (length b)) with j by lia.
        replace (pos + S (length b) + j) with (pos + i) by lia.
        reflexivity.
Qed.

Lemma charFormat_mapFormats f doc p :
  charFormat (mapFormats f 0 doc) p
  = option_map (fun x => if sepAt doc p then x else f p x) (charFormat doc p).
Proof.
  unfold charFormat. rewrite nth_error_mapFormats.
  destruct (nth_error (documentChars doc) p) as [[c x]|]; reflexivity.
Qed.

Lemma sepAt_text : forall doc start bpos t p,
  In (bpos, t) (blockPositions start (blockTexts doc)) ->
  bpos <= p < bpos + length t ->
  sepAt doc (p - start) = false.
Proof.
  induction doc as [|b doc IH]; intros start bpos t p Hin Hp; [destruct Hin|].
  cbn [blockTexts map blockPositions] in Hin. cbn [sepAt].
  destruct Hin as [Hin|Hin].
  - inversion Hin; subst. unfold blockText in Hp. rewrite length_map in Hp.
    destruct (Nat.ltb_spec (p - bpos) (length b)); [reflexivity|lia].
  - pose proof (blockPositions_ge _ _ _ _ Hin) as Hge.
    unfold blockLength, blockText in *. rewrite length_map in *.
    destruct (Nat.ltb_spec (p - start) (length b)); [reflexivity|].
    destruct (Nat.eqb_spec (p - start) (length b)); [lia|].
    replace (p - start - S (length b)) with (p - (start + S (length b))) by lia.
    apply (IH _ bpos t); [exact Hin|exact Hp].
Qed.



(** ** Writes *)

Lemma styleWrites_app : forall ws1 ws2 p x,
  styleWrites (ws1 ++ ws2) p x = styleWrites ws2 p (styleWrites ws1 p x).
Proof.
  induction ws1 as [|[w c] ws1 IH]; intros ws2 p x; [reflexivity|].
  simpl. apply IH.
Qed.

Lemma styleAll_writes classify blocks : forall visited p x,
  styleAll classify blocks visited p x
  = styleWrites (writesOf classify blocks visited) p x.
Proof.
  induction visited as [|c rest IH]; intros p x; [reflexivity|].
  simpl. apply IH.
Qed.

(** When the writes that set a format at [p] all set [f], the format
    at [p] is [f] after them, in whatever order they are made; when no
    write sets a format at [p], the format is as before. *)
Lemma styleWrites_agree f p : forall ws x,
  (forall g c, In (Some g, c) ws -> inSelection c p = true -> g = f) ->
  styleWrites ws p x = f \/
  (styleWrites ws p x = x /\
   forall g c, In (Some g, c) ws -> inSelection c p = false).
Proof.
  induction ws as [|[w c] ws IH]; intros x Hall.
  - right. split; [reflexivity|]. intros g c [].
  - cbn [styleWrites].
    destruct (IH (styleAt w c p x)) as [Hf|[Hx Hnone]].
    + intros g c' Hin. apply Hall. right. exact Hin.
    + left. exact Hf.
    + rewrite Hx. unfold styleAt. destruct w as [g|].
      * destruct (inSelection c p) eqn:Hs.
        -- left. apply (Hall g c); [left; reflexivity|exact Hs].
        -- right. split; [reflexivity|].
           intros g' c' [E|Hin]; [inversion E; subst; exact Hs|].
           eapply Hnone. exact Hin.
      * right. split; [reflexivity|].
        intros g' c' [E|Hin]; [discriminate E|]. eapply Hnone. exact Hin.
Qed.

Lemma styleWrites_same f p ws x c :
  (forall g c', In (Some g, c') ws -> inSelection c' p = true -> g = f) ->
  In (Some f, c) ws -> inSelection c p = true ->
  styleWrites ws p x = f.
Proof.
  intros Hall Hin Hs.
  destruct (styleWrites_agree f p ws x Hall) as [H|[_ Hnone]]; [exact H|].
  rewrite (Hnone _ _ Hin) in Hs. discriminate.
Qed.

Lemma styleWrites_none p ws x :
  (forall g c, In (Some g, c) ws -> inSelection c p = false) ->
  styleWrites ws p x = x.
Proof.
  intros Hnone.
  destruct (styleWrites_agree x p ws x) as [H|[H _]]; try exact H.
  intros g c Hin Hs. rewrite (Hnone _ _ Hin) in Hs. discriminate.
Qed.

(** ** Batches of a styling decorator *)

Section StylingProgress.

Variable m_re : QRegExp.
Variable classify : QString -> option QTextCharFormat.
Variable hook : QTextCursor -> QTextDocument -> QTextDocument.
Hypothesis hook_styles : stylingHook classify hook.
Hypothesis m_re_not_empty : isEmpty m_re = false.

Lemma visits_exists : forall n doc tc,
  selectionStart tc <= n ->
  exists visited doc', visits m_re hook doc tc visited doc'.
Proof.
  induction n as [|n IH]; intros doc tc Hn;
    destruct (find m_re doc tc) as [c|] eqn:E;
    try (exists [], doc; constructor; exact E).
  - apply find_decreases in E. lia.
  - pose proof (find_decreases _ _ _ _ E) as [Hd _].
    destruct (IH (hook c doc) c ltac:(lia)) as (v & doc' & Hv).
    exists (c :: v), doc'. econstructor; eassumption.
Qed.

Lemma decorateAll_writes : forall visited doc,
  decorateAll hook visited doc
  = mapFormats (styleWrites (writesOf classify (blockTexts doc) visited)) 0 doc.
Proof.
  induction visited as [|c rest IH]; intros doc.
  - simpl. symmetry. apply mapFormats_id.
  - cbn [decorateAll fold_left]. fold (decorateAll hook rest (hook c doc)).
    rewrite IH, (hook_texts classify hook hook_styles).
    rewrite (hook_mapFormats classify hook hook_styles c doc) at 1.
    rewrite mapFormats_compose. reflexivity.
Qed.


(** One batch from the cursor [tc]: the writes of the matches it
    visits are added to the document, and the matches below [tc] are
    those visited and those below the cursor the batch leaves. *)
Lemma decorateLoop_progress elapsed timer doc tc :
  selectionStart tc <= characterCount doc ->
  exists visited dec',
    decorateLoop m_re hook (selectionStart tc) elapsed 0 timer doc tc
    = Some (mapFormats
              (styleWrites (writesOf classify (blockTexts doc) visited)) 0 doc,
            dec', visited) /\
    ((dec' = {| m_tc := None; m_timerDecorate := timer |} /\
      visited = matchesBelow m_re (blockTexts doc) (selectionStart tc)) \/
     (exists c, dec' = {| m_tc := Some c; m_timerDecorate := true |} /\
        matchesBelow m_re (blockTexts doc) (selectionStart tc)
        = visited ++ matchesBelow m_re (blockTexts doc) (selectionStart c) /\
        selectionStart c <= characterCount doc)).
Proof.
  intros Hvalid.
  destruct (decorateLoop_spec m_re hook (selectionStart tc) elapsed 0 timer
              doc tc (le_n _))
    as (doc' & dec' & v & Hr & Hall & Hdec & Hcase).
  exists v, dec'. rewrite Hr, Hall, decorateAll_writes.
  split; [reflexivity|].
  destruct Hcase as [[-> Hv]|(c & -> & Hne & Hl & Hv)].
  - left. split; [reflexivity|].
    apply (visits_matchesBelow m_re classify hook hook_styles m_re_not_empty
             _ _ _ _ Hv Hvalid).
  - right. exists c. split; [reflexivity|].
    pose proof (decreasingFrom_last v _ tc Hne Hdec) as Hlt. rewrite Hl in Hlt.
    destruct (visits_exists (selectionStart c) doc' c (le_n _))
      as (rest & doc'' & Hrest).
    pose proof (Hv _ _ Hrest) as Hfull.
    apply (visits_matchesBelow m_re classify hook hook_styles m_re_not_empty)
      in Hfull; [|exact Hvalid].
    apply (visits_matchesBelow m_re classify hook hook_styles m_re_not_empty)
      in Hrest.
    + rewrite Hall, (decorateAll_texts classify hook hook_styles) in Hrest.
      rewrite <- Hfull, Hrest. split; [reflexivity|lia].
    + rewrite Hall, <- characterCount_texts,
        (decorateAll_texts classify hook hook_styles), characterCount_texts.
      lia.
Qed.

End StylingProgress.


(** ** Headers *)

Lemma logPattern_longest t n :
  colonSpaceAt t n -> (forall j, n < j -> ~ colonSpaceAt t j) ->
  matchedLength CaseInsensitive LogDecorator.m_re (searchText t) 0
  = Some (n + 2).
Proof.
  intros [Hc Hs] Hlast. unfold matchedLength. cbn [Nat.leb skipn].
  unfold matchHere. apply longest_spec. split.
  - apply logPattern_lens. split; [reflexivity|]. exists n.
    split; [reflexivity|].
    split; [apply searchText_colon; exact Hc|apply searchText_space; exact Hs].
  - intros x Hx. apply logPattern_lens in Hx.
    destruct Hx as (_ & j & -> & Hcj & Hsj).
    destruct (Nat.le_gt_cases j n) as [Hle|Hgt]; [lia|].
    exfalso. apply (Hlast j Hgt).
    split; [apply searchText_colon; exact Hcj|apply searchText_space; exact Hsj].
Qed.

Lemma colonSpaceAt_length t n : colonSpaceAt t n -> n + 2 <= length t.
Proof.
  intros [_ H].
  assert (Hn : nth_error t (S n) <> None) by (destruct H as [H|H]; congruence).
  apply nth_error_Some in Hn. lia.
Qed.

Lemma headerMatches_headerSpan doc a b :
  In {| anchor := a; position := b |}
     (matchesBelow LogDecorator.m_re (blockTexts doc) (characterCount doc - 1))
  <-> headerSpan doc a b.
Proof.
  rewrite matchesBelow_In. cbn [anchor]. rewrite matchAt_block. split.
  - intros (_ & bpos & t & len & Hin & Hp & Hm & Hc).
    apply logPattern_matchedLength in Hm.
    destruct Hm as (H0 & n & -> & Hcs & Hlast).
    inversion Hc; subst b.
    exists bpos, t, n. split; [exact Hin|]. split; [lia|]. split; [lia|].
    split; assumption.
  - intros (bpos & t & n & Hin & -> & -> & Hcs & Hlast).
    pose proof (colonSpaceAt_length _ _ Hcs) as Hlen.
    pose proof (blockPositions_end _ _ _ _ Hin) as Hend.
    rewrite characterCount_texts in Hend. unfold blockLength in Hend.
    split; [lia|]. exists bpos, t, (n + 2).
    split; [exact Hin|]. split; [lia|]. split; [|f_equal; lia].
    rewrite Nat.sub_diag. apply logPattern_longest; assumption.
Qed.

Lemma matchesBelow_cursor re blocks n c :
  In c (matchesBelow re blocks n) ->
  exists a b, c = {| anchor := a; position := b |} /\ a <= b.
Proof.
  intros H. apply matchesBelow_In in H. destruct H as [_ H].
  apply matchAt_block in H. destruct H as (bpos & t & len & _ & _ & _ & ->).
  eexists _, _. split; [reflexivity|]. lia.
Qed.

Lemma inSelection_span a b p :
  a <= b ->
  (inSelection {| anchor := a; position := b |} p = true <-> a <= p < b).
Proof.
  intros Hab. unfold inSelection, selectionStart, selectionEnd.
  cbn [anchor position].
  rewrite Nat.min_l, Nat.max_r by exact Hab.
  rewrite andb_true_iff, Nat.leb_le, Nat.ltb_lt. reflexivity.
Qed.

Lemma blockPositions_same blocks b1 t1 b2 t2 p :
  In (b1, t1) (blockPositions 0 blocks) ->
  In (b2, t2) (blockPositions 0 blocks) ->
  b1 <= p <= b1 + length t1 -> b2 <= p <= b2 + length t2 ->
  b1 = b2 /\ t1 = t2.
Proof.
  intros H1 H2 P1 P2.
  destruct (blocksFind_of_In blocks 0 p [] b1 t1 H1) as [l1 E1];
    [unfold blockLength; lia|].
  destruct (blocksFind_of_In blocks 0 p [] b2 t2 H2) as [l2 E2];
    [unfold blockLength; lia|].
  rewrite E1 in E2. inversion E2. auto.
Qed.

Lemma headerSpan_text doc a b :
  headerSpan doc a b ->
  a < b /\
  exists bpos t,
    In (bpos, t) (blockPositions 0 (blockTexts doc)) /\
    bpos <= a /\ b <= bpos + length t.
Proof.
  intros (bpos & t & n & Hin & -> & -> & Hcs & _).
  pose proof (colonSpaceAt_length _ _ Hcs). split; [lia|].
  exists bpos, t. split; [exact Hin|]. lia.
Qed.


Lemma headerSpan_unique doc a b a' b' p :
  headerSpan doc a b -> headerSpan doc a' b' ->
  a <= p < b -> a' <= p < b' -> a = a' /\ b = b'.
Proof.
  intros (bpos & t & n & Hin & -> & -> & Hcs & Hlast)
         (bpos' & t' & n' & Hin' & -> & -> & Hcs' & Hlast') Hp Hp'.
  pose proof (colonSpaceAt_length _ _ Hcs).
  pose proof (colonSpaceAt_length _ _ Hcs').
  destruct (blockPositions_same _ _ _ _ _ p Hin Hin') as [<- <-]; [lia|lia|].
  split; [reflexivity|].
  destruct (Nat.lt_trichotomy n n') as [Hlt|[->|Hgt]]; [|reflexivity|].
  - destruct (Hlast n' Hlt Hcs').
  - destruct (Hlast' n Hgt Hcs).
Qed.



(** ** The writes of the two decorators, by position *)

Section WritesAt.

Variable font : QFont.
Variable doc : QTextDocument.

Lemma logWrites_at g c p :
  In (Some g, c) (logWrites font doc) -> inSelection c p = true ->
  exists text, inHeader doc p text /\ classifyLabel font text = Some g.
Proof.
  intros Hin Hs. apply in_map_iff in Hin. destruct Hin as (c' & E & Hin).
  inversion E; subst c'.
  destruct (matchesBelow_cursor _ _ _ _ Hin) as (a & b & -> & Hab).
  apply headerMatches_headerSpan in Hin. apply inSelection_span in Hs; [|exact Hab].
  exists (selectedText {| anchor := a; position := b |} doc).
  split; [exists a, b; auto|]. rewrite selectedText_texts. congruence.
Qed.

Lemma logWrites_of p text g :
  inHeader doc p text -> classifyLabel font text = Some g ->
  exists c, In (Some g, c) (logWrites font doc) /\ inSelection c p = true.
Proof.
  intros (a & b & Hh & Hp & E) Hg.
  exists {| anchor := a; position := b |}. split.
  - apply in_map_iff. exists {| anchor := a; position := b |}.
    split; [|apply headerMatches_headerSpan; exact Hh].
    rewrite <- selectedText_texts, E, Hg. reflexivity.
  - apply inSelection_span; [lia|exact Hp].
Qed.



Lemma inHeader_unique p text text' :
  inHeader doc p text -> inHeader doc p text' -> text = text'.
Proof.
  intros (a & b & Hh & Hp & E) (a' & b' & Hh' & Hp' & E').
  destruct (headerSpan_unique _ _ _ _ _ _ Hh Hh' Hp Hp') as [<- <-].
  congruence.
Qed.

Lemma inHeader_sepAt p text : inHeader doc p text -> sepAt doc p = false.
Proof.
  intros (a & b & Hh & Hp & _).
  destruct (headerSpan_text _ _ _ Hh) as (_ & bpos & t & Hin & Ha & Hb).
  rewrite <- (Nat.sub_0_r p). apply (sepAt_text doc 0 bpos t); [exact Hin|lia].
Qed.




End WritesAt.

(** ** The progress of a pass, batch by batch *)

Section PassProgress.

Variable m_re : QRegExp.
Variable classify : QString -> option QTextCharFormat.
Variable hook : QTextCursor -> QTextDocument -> QTextDocument.
Hypothesis hook_styles : stylingHook classify hook.
Hypothesis m_re_not_empty : isEmpty m_re = false.


Lemma timeout_progress elapsed doc dec done :
  passProgress m_re (blockTexts doc) dec done ->
  exists visited dec',
    timeout m_re hook elapsed doc dec
    = Some (mapFormats
              (styleWrites (writesOf classify (blockTexts doc) visited)) 0 doc,
            dec', visited) /\
    passProgress m_re (blockTexts doc) dec' (done ++ visited).
Proof.
  unfold timeout, decorateBatch, passProgress. cbn [m_tc m_timerDecorate].
  rewrite characterCount_texts.
  destruct (m_tc dec) as [c|].
  - intros [Hm Hc].
    destruct (decorateLoop_progress m_re classify hook hook_styles
                m_re_not_empty elapsed false doc c Hc)
      as (v & dec' & Hr & Hcase).
    exists v, dec'. split; [exact Hr|].
    destruct Hcase as [[-> Hv]|(c' & -> & Hm' & Hc')]; cbn [m_tc].
    + rewrite Hm, Hv. reflexivity.
    + split; [rewrite Hm, Hm', app_assoc; reflexivity|exact Hc'].
  - intros Hd. exists [], {| m_tc := None; m_timerDecorate := false |}. split.
    + cbn [writesOf map]. f_equal. f_equal. f_equal. symmetry.
      apply mapFormats_id.
    + cbn [m_tc]. rewrite app_nil_r. exact Hd.
Qed.

End PassProgress.

(** ** The two passes in the dialog *)



Lemma timerEvent_styling doc0 ev elapsed d :
  stylingState doc0 d ->
  exists d', timerEvent ev elapsed d = Some d' /\ stylingState doc0 d'.
Proof.
  intros (vL & vS & ws & Hdoc & Hws & HpL & HpS).
  assert (Ht : blockTexts (textBrowserLog d) = blockTexts doc0)
    by (rewrite Hdoc; apply mapFormats_texts).
  destruct ev; unfold timerEvent.
  - destruct (m_timerDecorate (m_logDecorator d));
      [|exists d; split; [reflexivity|exists vL, vS, ws; auto]].
    rewrite <- Ht in HpL.
    destruct (timeout_progress LogDecorator.m_re _ _ (LogDecorator_styles logFont)
                eq_refl elapsed (textBrowserLog d) (m_logDecorator d) vL HpL)
      as (v & dec' & -> & Hp').
    eexists. split; [reflexivity|].
    exists (vL ++ v), vS,
      (ws ++ writesOf (classifyLabel logFont) (blockTexts doc0) v).
    cbn [textBrowserLog setDocument m_logDecorator m_stringDecorator].
    rewrite Ht in *. split; [|split; [|split; assumption]].
    + rewrite Hdoc, mapFormats_compose.
      apply mapFormats_ext. intros p x. symmetry. apply styleWrites_app.
    + intros w. unfold writesOf at 2. rewrite map_app.
      rewrite !in_app_iff, Hws. unfold writesOf. tauto.
  - destruct (m_timerDecorate (m_stringDecorator d));
      [|exists d; split; [reflexivity|exists vL, vS, ws; auto]].
    rewrite <- Ht in HpS.
    destruct (timeout_progress StringDecorator.m_re _ _ StringDecorator_styles
                eq_refl elapsed (textBrowserLog d) (m_stringDecorator d) vS HpS)
      as (v & dec' & -> & Hp').
    eexists. split; [reflexivity|].
    exists vL, (vS ++ v),
      (ws ++ writesOf (fun _ => Some StringDecorator.m_stringFormat)
               (blockTexts doc0) v).
    cbn [textBrowserLog setDocument m_logDecorator m_stringDecorator].
    rewrite Ht in *. split; [|split; [|split; assumption]].
    + rewrite Hdoc, mapFormats_compose.
      apply mapFormats_ext. intros p x. symmetry. apply styleWrites_app.
    + intros w. unfold writesOf at 3. rewrite map_app.
      rewrite !in_app_iff, Hws. unfold writesOf. tauto.
Qed.

Lemma runEvents_styling doc0 : forall evs d,
  stylingState doc0 d ->
  exists d', runEvents evs d = Some d' /\ stylingState doc0 d'.
Proof.
  induction evs as [|[ev elapsed] evs IH]; intros d H.
  - exists d. split; [reflexivity|exact H].
  - destruct (timerEvent_styling doc0 ev elapsed d H) as (d1 & E & H1).
    cbn [runEvents]. rewrite E. apply IH. exact H1.
Qed.






(** ** The formats the dialog shows *)

(** X7.  A pass of the label decorator, whatever the clock and the
    formats before it: it hands to the hook exactly the headers of the
    lines, a header being the span from the start of a line through its
    last colon and space; a position in a header whose text starts with
    a label gets the format of the first such label, and every other
    position keeps its format; the text is left as it is. *)
Theorem log_pass_styles_headers
  (font : QFont) (clock : nat -> nat -> Z) (doc : QTextDocument)
  (dec : Decorator) :
  exists visited doc',
    pass LogDecorator.m_re (LogDecorator.decorate font) clock doc dec
    = Some (doc', idleDecorator, visited) /\
    blockTexts doc' = blockTexts doc /\
    (forall a b,
        In {| anchor := a; position := b |} visited <-> headerSpan doc a b) /\
    forall p x,
      charFormat doc p = Some x ->
      (forall text f,
          inHeader doc p text -> classifyLabel font text = Some f ->
          charFormat doc' p = Some f) /\
      ((forall text, inHeader doc p text -> classifyLabel font text = None) ->
       charFormat doc' p = Some x).
Proof.
  eexists _, _. split.
  - apply (pass_matchesBelow LogDecorator.m_re _ _ (LogDecorator_styles font)
             eq_refl).
  - split; [apply mapFormats_texts|].
    split; [intros a b; apply headerMatches_headerSpan|].
    intros p x Hx. rewrite charFormat_mapFormats, Hx. cbn [option_map].
    rewrite styleAll_writes. fold (logWrites font doc). split.
    + intros text f Hh Hf. rewrite (inHeader_sepAt _ _ _ Hh). f_equal.
      destruct (logWrites_of font doc p text f Hh Hf) as (c & Hin & Hs).
      apply (styleWrites_same _ p _ x c); [|exact Hin|exact Hs].
      intros g c' Hin' Hs'.
      destruct (logWrites_at _ _ _ _ _ Hin' Hs') as (text' & Hh' & Hg).
      rewrite (inHeader_unique _ _ _ _ Hh' Hh) in Hg. congruence.
    + intros Hnone. destruct (sepAt doc p); [reflexivity|]. f_equal.
      apply styleWrites_none. intros g c Hin.
      destruct (inSelection c p) eqn:Hs; [|reflexivity].
      destruct (logWrites_at _ _ _ _ _ Hin Hs) as (text & Hh & Hg).
      rewrite (Hnone _ Hh) in Hg. discriminate.
Qed.

(** ** Documents that end with an empty block *)















(** X11.  Where a quoted string lies inside a labelled header the
    format depends on the clock.  In the log whose first line is
    [Error: 'a': b], the quote at position 7 has the string format when
    the label pass ends within [updateLog]; when the first batch of the
    label pass runs out of time, the string pass comes first and the
    continuation of the label pass then gives the whole header, the
    quoted string with it, the format of the Error label. *)
Theorem overlap_format_depends_on_clock :
  exists (log : QString) (d d2 d2' : LogDialog)
         (slow fast : nat -> Z) (evs : list (TimerEvent * (nat -> Z)))
         (p : nat),
    match updateLog fast fast log d with
    | Some d1 => runEvents evs d1
    | None => None
    end = Some d2 /\
    match updateLog slow fast log d with
    | Some d1 => runEvents evs d1
    | None => None
    end = Some d2' /\
    idle d2 /\ idle d2' /\
    toPlainText (textBrowserLog d2) = toPlainText (textBrowserLog d2') /\
    inQuoted (textBrowserLog d2) p /\
    inHeader (textBrowserLog d2) p (qs "Error: 'a': ") /\
    charFormat (textBrowserLog d2) p = Some StringDecorator.m_stringFormat /\
    charFormat (textBrowserLog d2') p = Some (levelFormat logFont LogError).
Proof.
  exists overlapLog, noteHidden.
  eexists _, _. exists slowClock, fastClock, [(LogTimer, fastClock)], 7.
  split; [vm_compute; reflexivity|]. split; [vm_compute; reflexivity|].
  split; [split; reflexivity|]. split; [split; reflexivity|].
  split; [reflexivity|]. split; [|split; [|split; reflexivity]].
  - exists 7, 10. split; [|lia].
    exists 0, (qs "Error: 'a': b"), 7, 3, squote.
    split; [left; reflexivity|]. split; [right; reflexivity|].
    split; [|split; reflexivity].
    exists (qs "Error: "), (qs "a"), (qs ": b").
    split; [reflexivity|]. split; [reflexivity|]. split; [reflexivity|].
    intros [H|[]]. discriminate H.
  - exists 0, 12. split; [|split; [lia|reflexivity]].
    exists 0, (qs "Error: 'a': b"), 10.
    split; [left; reflexivity|]. split; [reflexivity|]. split; [reflexivity|].
    split; [split; [reflexivity|left; reflexivity]|].
    intros j Hj [Hc _].
    do 11 (destruct j as [|j]; [lia|]).
    destruct j as [|[|j]]; try discriminate Hc.
    destruct j; discriminate Hc.
Qed.

(** ** The label of a header is the label of its line *)

Lemma skipn_plainChars : forall blocks start bpos t,
  In (bpos, t) (blockPositions start blocks) ->
  exists tail, skipn (bpos - start) (plainChars blocks) = t ++ tail.
Proof.
  induction blocks as [|t0 rest IH]; intros start bpos t H; [destruct H|].
  cbn [blockPositions] in H. unfold plainChars. cbn [flat_map].
  fold (plainChars rest). destruct H as [H|H].
  - inversion H; subst. rewrite Nat.sub_diag. cbn [skipn].
    rewrite <- app_assoc. eexists. reflexivity.
  - pose proof (blockPositions_ge _ _ _ _ H) as Hge.
    destruct (IH _ _ _ H) as (tail & E). exists tail.
    unfold blockLength in *.
    rewrite skipn_app, skipn_all2 by (rewrite length_app; cbn [length]; lia).
    rewrite length_app. cbn [length app].
    replace (bpos - start - (length t0 + 1))
      with (bpos - (start + S (length t0))) by lia.
    exact E.
Qed.

Lemma startsWith_firstn : forall p t k,
  length p <= k -> startsWith (firstn k t) p = startsWith t p.
Proof.
  induction p as [|x p IH]; intros t k Hk; [reflexivity|].
  cbn [length] in Hk. destruct k as [|k]; [lia|].
  destruct t as [|c t]; [reflexivity|].
  cbn [firstn startsWith]. rewrite IH by lia. reflexivity.
Qed.

Lemma startsWith_firstn_true : forall p t k,
  startsWith (firstn k t) p = true -> startsWith t p = true.
Proof.
  induction p as [|x p IH]; intros t k H; [reflexivity|].
  destruct k as [|k]; [discriminate H|].
  destruct t as [|c t]; [discriminate H|].
  cbn [firstn startsWith] in *. apply andb_prop in H. destruct H as [Hc Hp].
  rewrite Hc. cbn [andb]. eapply IH. exact Hp.
Qed.

Lemma startsWith_header (lab t : QString) n :
  ~ In ":"%char lab -> nth_error t n = Some ":"%char ->
  startsWith (firstn (n + 2) t) lab = startsWith t lab.
Proof.
  intros Hlab Hn. destruct (startsWith t lab) eqn:E.
  - rewrite startsWith_firstn; [exact E|].
    destruct (Nat.le_gt_cases (length lab) n) as [Hle|Hgt]; [lia|].
    exfalso. apply Hlab. apply startsWith_split in E.
    rewrite E, nth_error_app1 in Hn by exact Hgt.
    apply nth_error_In in Hn. exact Hn.
  - destruct (startsWith (firstn (n + 2) t) lab) eqn:E'; [|reflexivity].
    apply startsWith_firstn_true in E'. congruence.
Qed.

Lemma logLevelLabel_no_colon level : ~ In ":"%char (logLevelLabel level).
Proof.
  destruct level; cbn; intros H;
    repeat (destruct H as [H|H]; [discriminate H|]); exact H.
Qed.

Lemma classifyLabel_header font t n :
  nth_error t n = Some ":"%char ->
  classifyLabel font (firstn (n + 2) t) = classifyLabel font t.
Proof.
  intros Hn. unfold classifyLabel, knownLabels. cbn [List.find].
  rewrite !(startsWith_header _ t n) by (try apply logLevelLabel_no_colon; exact Hn).
  reflexivity.
Qed.

(** X12.  The label decorator reads the label off the header it
    matched, and no label holds a colon: the format it gives to the
    header of a line is the format of the label the line itself starts
    with, and it gives none when the line starts with no label. *)
Theorem header_label_is_line_label (doc : QTextDocument) (a b : nat) :
  headerSpan doc a b ->
  exists t,
    In (a, t) (blockPositions 0 (blockTexts doc)) /\
    forall font,
      classifyLabel font (selectedText {| anchor := a; position := b |} doc)
      = classifyLabel font t.
Proof.
  intros (bpos & t & n & Hin & -> & -> & Hcs & _).
  exists t. split; [exact Hin|]. intros font.
  pose proof (colonSpaceAt_length _ _ Hcs) as Hlen.
  destruct (skipn_plainChars _ _ _ _ Hin) as (tail & E).
  rewrite Nat.sub_0_r in E.
  rewrite selectedText_texts. unfold selectedTextIn, selectionStart, selectionEnd.
  cbn [anchor position].
  rewrite Nat.min_l, Nat.max_r by lia.
  replace (bpos + n + 2 - bpos) with (n + 2) by lia.
  rewrite E, firstn_app.
  replace (n + 2 - length t) with 0 by lia.
  cbn [firstn]. rewrite app_nil_r.
  apply classifyLabel_header. apply Hcs.
Qed.

Lemma header_label_is_line_label_witness :
  headerSpan headerDoc 0 10 /\
  exists t,
    In (0, t) (blockPositions 0 (blockTexts headerDoc)) /\
    forall font,
      classifyLabel font
        (selectedText {| anchor := 0; position := 10 |} headerDoc)
      = classifyLabel font t.
Proof.
  assert (H : headerSpan headerDoc 0 10).
  { exists 0, (qs "Error: a: b"), 8.
    split; [left; reflexivity|]. split; [reflexivity|]. split; [reflexivity|].
    split; [split; [reflexivity|left; reflexivity]|].
    intros j Hj [Hc _].
    do 9 (destruct j as [|j]; [lia|]).
    destruct j as [|[|j]]; try discriminate Hc.
    destruct j; discriminate Hc. }
  split; [exact H|].
  exact (header_label_is_line_label headerDoc 0 10 H).
Defined.
